(** * Recursion and memoization (chapter 11.10): the two Fibonacci evaluators

    Shallow embedding of [Fibonacci] and [Fibonacci_memoized_version] from
    [11.10 — Recursion (vsCode)/main.cpp].

    - [std::size_t] values are modelled in [N], with the 64-bit wrap-around
      of [+] and [-] written out;
    - [int] values (the elements of the cache [std::vector<int>]) are
      modelled in [Z], in two's complement on 32 bits;
    - the function-local [static std::vector<int> results] is threaded
      through the calls as an explicit [list Z];
    - [results[x]] is stdpp's list lookup: [None] stands for a read past
      the end of the vector. *)

From Stdlib Require Import ZArith NArith Lia.
From stdpp Require Import base list.
From Equations Require Import Equations.

Local Open Scope N_scope.

(** ** Machine integers *)

Module Int.

(** [std::size_t] is 64 bits wide and [int] is 32 bits wide, as on the
    usual 64-bit platforms. *)
Definition size_t_modulus : N := 2 ^ 64.
Definition INT_MAX : Z := (2 ^ 31 - 1)%Z.

(** Unsigned addition and subtraction on [std::size_t]. *)
Definition add (a b : N) : N := (a + b) mod size_t_modulus.
Definition sub (a b : N) : N :=
  (a + (size_t_modulus - b mod size_t_modulus)) mod size_t_modulus.

(** Conversion [std::size_t -> int]: the low 32 bits, read as a signed
    number (what C++20 requires and earlier compilers do). *)
Definition int_of_size_t (n : N) : Z :=
  let r := (Z.of_N n mod 2 ^ 32)%Z in
  if (r <? 2 ^ 31)%Z then r else (r - 2 ^ 32)%Z.

(** Conversion of a signed integer to [std::size_t]: value modulo 2^64
    (sign extension). *)
Definition size_t_of_int (z : Z) : N := Z.to_N (z mod 2 ^ 64).

End Int.

(** ** The naive evaluator

<<
std::size_t Fibonacci(std::size_t x)
{
    if(x == 0)       return 0;
    else if(x == 1)  return 1;
    else             return (Fibonacci(x-1) + Fibonacci(x-2));
}
>> *)

(** The recursive calls are on [x - 1] and [x - 2] for an [x] that is
    neither 0 nor 1: the argument decreases, with or without wrap-around. *)
Ltac sub_decreases :=
  match goal with
  | |- (N.to_nat (Int.sub ?x ?k) < N.to_nat ?x)%nat =>
      unfold Int.sub;
      change Int.size_t_modulus with 18446744073709551616;
      rewrite (N.mod_small k) by lia;
      destruct (N.lt_ge_cases x 18446744073709551616);
      [ replace (x + (18446744073709551616 - k))
          with ((x - k) + 1 * 18446744073709551616) by lia;
        rewrite N.Div0.mod_add, N.mod_small; lia
      | pose proof (N.mod_upper_bound (x + (18446744073709551616 - k))
                      18446744073709551616);
        lia ]
  end.

Equations? Fibonacci (x : N) : N by wf (N.to_nat x) lt :=
  Fibonacci x with N.eq_dec x 0 := {
    | left _ => 0
    | right _ with N.eq_dec x 1 := {
      | left _ => 1
      | right _ => Int.add (Fibonacci (Int.sub x 1)) (Fibonacci (Int.sub x 2)) } }.
Proof.
  all: sub_decreases.
Qed.

(** ** The Fibonacci numbers

    The unbounded sequence, computed in linear time by iterating on the
    pair of two consecutive terms. *)

Fixpoint fib_pair (n : nat) : N * N :=
  match n with
  | O => (0, 1)
  | S p => let '(a, b) := fib_pair p in (b, a + b)
  end.

Definition fib (n : nat) : N := fst (fib_pair n).

(** ** The memoized evaluator

<<
std::size_t Fibonacci_memoized_version(std::size_t x)
{
    static std::vector<int> results{0, 1};

    if(x < static_cast<int>(std::size(results)))
        return results[x];
    else
    {
        results.push_back(Fibonacci(x - 1) + Fibonacci(x - 2));
        return results[x];
    }
}
>>

    The static vector starts as [{0, 1}] and lives as long as the program:
    a call receives it and hands it back. *)

Definition results_init : list Z := [0%Z; 1%Z].

(** [std::size(results)], a [std::size_t]. *)
Definition size (results : list Z) : N := N.of_nat (length results).

(** [results[x]]: [operator[]] checks nothing, reading at or past the end
    is undefined behaviour and is [None] here. *)
Definition at_index (results : list Z) (x : N) : option Z :=
  results !! N.to_nat x.

(** [results.push_back(v)]. *)
Definition push_back (results : list Z) (v : Z) : list Z := results ++ [v].

(** The test [x < static_cast<int>(std::size(results))]: the size is
    narrowed to [int], and the comparison with the unsigned [x] converts
    that [int] back to [std::size_t]. *)
Definition cached (results : list Z) (x : N) : bool :=
  x <? Int.size_t_of_int (Int.int_of_size_t (size results)).

(** The entry that a miss appends: the sum is computed on [std::size_t]
    and narrowed to the [int] element type. *)
Definition new_entry (x : N) : Z :=
  Int.int_of_size_t (Int.add (Fibonacci (Int.sub x 1)) (Fibonacci (Int.sub x 2))).

(** A call returns the value handed to the caller, if the read of
    [results[x]] was inside the vector, and the vector as the call leaves
    it. The [int] read from the vector is converted to the [std::size_t]
    return type. *)
Definition Fibonacci_memoized_version (results : list Z) (x : N)
  : option N * list Z :=
  if cached results x then
    (Int.size_t_of_int <$> at_index results x, results)
  else
    let results' := push_back results (new_entry x) in
    (Int.size_t_of_int <$> at_index results' x, results').

(** A sequence of calls on one evaluator, in order: what each call
    returned, and the vector at the end. An out-of-range read does not
    touch the vector, so the run goes on with the vector as it is. *)
Fixpoint run (results : list Z) (calls : list N) : list (option N) * list Z :=
  match calls with
  | [] => ([], results)
  | x :: rest =>
      let '(r, results') := Fibonacci_memoized_version results x in
      let '(rs, final) := run results' rest in
      (r :: rs, final)
  end.

(** ** Counting the recursive evaluations

    [Fibonacci_calls x] lists the arguments of the invocations of
    [Fibonacci] that the call [Fibonacci(x)] makes, itself first. It follows
    the recursion of [Fibonacci]; the operands of [+] are taken from left
    to right. *)

Equations? Fibonacci_calls (x : N) : list N by wf (N.to_nat x) lt :=
  Fibonacci_calls x with N.eq_dec x 0 := {
    | left _ => [x]
    | right _ with N.eq_dec x 1 := {
      | left _ => [x]
      | right _ =>
          x :: Fibonacci_calls (Int.sub x 1) ++ Fibonacci_calls (Int.sub x 2) } }.
Proof.
  all: sub_decreases.
Qed.

(** The invocations of [Fibonacci] made by one call of the memoized
    evaluator: none on a hit, those of the two operands on a miss. The
    memoized evaluator never calls itself. *)
Definition Fibonacci_memoized_version_calls (results : list Z) (x : N) : list N :=
  if cached results x then []
  else Fibonacci_calls (Int.sub x 1) ++ Fibonacci_calls (Int.sub x 2).

(** The invocations of [Fibonacci] made by a sequence of calls. *)
Fixpoint run_calls (results : list Z) (calls : list N) : list N :=
  match calls with
  | [] => []
  | x :: rest =>
      Fibonacci_memoized_version_calls results x
        ++ run_calls (Fibonacci_memoized_version results x).2 rest
  end.

(** The loop of [main]: [for(std::size_t i{ 0 }; i < 20; ++i)] calls the
    memoized evaluator on [0], [1], ..., [19]. *)
Definition main_loop : list N := N.of_nat <$> seq 0 20.

(** ** States of the evaluator *)

(** The size of the vector is representable as an [int]: the range on which
    [static_cast<int>] keeps its value. *)
Definition fits_int (results : list Z) : Prop :=
  (Z.of_N (size results) <= Int.INT_MAX)%Z.

(** The vector that holds the first [k] terms, each narrowed to [int]. *)
Definition fib_cache (k : nat) : list Z :=
  (fun i => Int.int_of_size_t (Fibonacci (N.of_nat i))) <$> seq 0 k.

(** The vectors that the evaluator can hold when every call so far was made
    with an index that is at most the number of cached entries, on a vector
    whose size fits in an [int]. *)
Inductive reachable : list Z -> Prop :=
| reachable_init : reachable results_init
| reachable_call (results : list Z) (x : N) :
    reachable results ->
    fits_int results ->
    x <= size results ->
    reachable (Fibonacci_memoized_version results x).2.

(** ** What the caller observes

    The specification names one error kind. The source has no [throw], no
    error code and no assertion: a call hands back a value, or reads past
    the end of the vector. *)

Inductive error_kind : Set := InvalidArgument.

Inductive observation : Set :=
| Returns (v : N)
| Raises (e : error_kind)
| UndefinedRead.

Definition observe (r : option N) : observation :=
  match r with
  | Some v => Returns v
  | None => UndefinedRead
  end.

(** A call whose argument is a signed integer [n]: the parameter is a
    [std::size_t], so the argument is converted on the way in. *)
Definition call_with_int (results : list Z) (n : Z) : option N * list Z :=
  Fibonacci_memoized_version results (Int.size_t_of_int n).

(** ** The loops of [main]

    [for(std::size_t i{ 0 }; i < k; ++i)] calls an evaluator on [0], [1],
    ..., [k - 1]: with [k = 13] the naive one, with [k = 20] the memoized
    one. *)

Definition ascending (k : nat) : list N := N.of_nat <$> seq 0 k.

(** The invocations of [Fibonacci] made by the loop over the naive
    evaluator. *)
Definition Fibonacci_loop_calls (k : nat) : list N :=
  i ← ascending k; Fibonacci_calls i.

(** ** The other recursive functions of the chapter

    They compute on [int]. Signed overflow is undefined behaviour: the
    arithmetic below yields [None] when the mathematical result is not an
    [int], and the functions hand that on. *)

Local Open Scope Z_scope.

Module Checked.

Definition INT_MIN : Z := - 2 ^ 31.

Definition in_range (z : Z) : bool := (INT_MIN <=? z) && (z <=? Int.INT_MAX).

Definition int (z : Z) : option Z := if in_range z then Some z else None.

Definition add (a b : Z) : option Z := int (a + b).
Definition mul (a b : Z) : option Z := int (a * b).

End Checked.

(**
<<
// return the sum of all the integers between 1 (inclusive) and sumto (inclusive)
// returns 0 for negative numbers
int sumTo(int sumto)
{
    if(sumto <= 0)        return 0;
    else if(sumto == 1)   return 1;
    else                  return sumTo(sumto-1) + sumto;
}
>>
    The argument of the recursive call is [sumto - 1] for a [sumto] that is
    at least 2: that subtraction cannot overflow. *)

Equations? sumTo (sumto : Z) : option Z by wf (Z.to_nat sumto) lt :=
  sumTo sumto with Z_le_dec sumto 0 := {
    | left _ => Some 0
    | right _ with Z.eq_dec sumto 1 := {
      | left _ => Some 1
      | right _ => r ← sumTo (sumto - 1); Checked.add r sumto } }.
Proof. lia. Qed.

(**
<<
int factorial_of_an_integer_N(int x)
{
    if(x <= 1)  return 1;
    else        return x * factorial_of_an_integer_N(x - 1);
}
>> *)

Equations? factorial_of_an_integer_N (x : Z) : option Z by wf (Z.to_nat x) lt :=
  factorial_of_an_integer_N x with Z_le_dec x 1 := {
    | left _ => Some 1
    | right _ => r ← factorial_of_an_integer_N (x - 1); Checked.mul x r }.
Proof. lia. Qed.

(** The two functions below divide their argument by 10 or by 2 at each
    call. The number of binary digits of [|x|] measures the calls that are
    left. *)
Definition bits (x : Z) : nat := Z.to_nat (Z.log2_up (Z.abs x + 1)).

Ltac bits_decrease :=
  match goal with
  | |- (bits (?x ÷ ?d) < bits ?x)%nat =>
      let L := fresh "L" in
      let Hp := fresh "Hp" in
      assert (2 * Z.abs (x ÷ d) <= Z.abs x)
        by (rewrite <- (Z.quot_abs x d) by lia;
            change (Z.abs d) with d;
            pose proof (Z.mul_quot_le (Z.abs x) d ltac:(lia) ltac:(lia));
            pose proof (Z.quot_pos (Z.abs x) d ltac:(lia) ltac:(lia));
            lia);
      unfold bits;
      pose proof (Z.abs_nonneg (x ÷ d));
      pose proof (Z.log2_up_pos (Z.abs x + 1) ltac:(lia));
      pose proof (proj2 (Z.log2_up_le_pow2 (Z.abs x + 1)
                           (Z.log2_up (Z.abs x + 1)) ltac:(lia)) ltac:(lia))
        as Hp;
      pose proof (Z.log2_up_nonneg (Z.abs (x ÷ d) + 1));
      assert (Z.log2_up (Z.abs (x ÷ d) + 1) <= Z.log2_up (Z.abs x + 1) - 1)
        by (apply Z.log2_up_le_pow2; [lia |];
            remember (Z.log2_up (Z.abs x + 1)) as L;
            replace L with (Z.succ (L - 1)) in Hp by lia;
            rewrite Z.pow_succ_r in Hp by lia; lia);
      lia
  end.

(**
<<
int quesion_two(int x)
{
    if(x < 10)  return x;
    else        return quesion_two(x / 10) + x % 10;
}
>>
    [/] and [%] on [int] truncate towards zero: [Z.quot] and [Z.rem]. *)

Equations? quesion_two (x : Z) : option Z by wf (bits x) lt :=
  quesion_two x with Z_lt_dec x 10 := {
    | left _ => Some x
    | right _ => r ← quesion_two (x ÷ 10); Checked.add r (Z.rem x 10) }.
Proof. bits_decrease. Qed.

(**
<<
void question_three(int x)
{
    if(x == 0)  return;
    question_three(x/2);
    std::cout << x % 2;
}
>>
    The function returns the list of the integers that it writes to
    [std::cout], in order. *)

Equations? question_three (x : Z) : list Z by wf (bits x) lt :=
  question_three x with Z.eq_dec x 0 := {
    | left _ => []
    | right _ => question_three (x ÷ 2) ++ [Z.rem x 2] }.
Proof. bits_decrease. Qed.

(**
<<
unsigned int question_threeB(unsigned int x)
{
    if(x == 0)  return 0;
        question_three(x/2);
        std::cout << x % 2;
}
>>
    [x] is an [unsigned int], in [N]; [x/2] is converted to the [int]
    parameter of [question_three] (the low 32 bits, read as a signed
    number). When [x] is not 0 the function flows off its end without a
    [return]: the call has no value, which is [None] here. *)

Definition question_threeB (x : N) : list Z * option N :=
  if (x =? 0)%N then ([], Some 0%N)
  else (question_three (Int.int_of_size_t (x / 2)) ++ [Z.of_N (x mod 2)], None).

(**
<<
void countDown_plus(int count)
{
    std::cout << "push " << count << '\n';
    if( count > 1 )
        countDown_plus(count-1);
    std::cout << "pop " << count << '\n';
}
>>
    The function returns the lines that it writes, in order. *)

Inductive line : Set :=
| Push (count : Z)
| Pop (count : Z).

Equations? countDown_plus (count : Z) : list line by wf (Z.to_nat count) lt :=
  countDown_plus count with Z_gt_dec count 1 := {
    | left _ => Push count :: countDown_plus (count - 1) ++ [Pop count]
    | right _ => [Push count; Pop count] }.
Proof. lia. Qed.

(** ** Numerals

    The value of a list of digits, most significant first, and the sum of
    a list. *)

Definition of_digits (base : Z) (ds : list Z) : Z :=
  foldl (fun acc d => base * acc + d) 0 ds.

Definition sum (ds : list Z) : Z := foldr Z.add 0 ds.

(** The integers from [count] down to 1. *)
Definition descending (count : Z) : list Z :=
  (fun i => count - Z.of_nat i) <$> seq 0 (Z.to_nat count).

Local Close Scope Z_scope.

(** * Properties *)

(** ** The naive evaluator *)

(** The body of [Fibonacci], as one equation. *)
Lemma Fibonacci_body (x : N) :
  Fibonacci x =
  if x =? 0 then 0
  else if x =? 1 then 1
  else Int.add (Fibonacci (Int.sub x 1)) (Fibonacci (Int.sub x 2)).
Proof.
  rewrite Fibonacci_equation_1.
  destruct (N.eq_dec x 0) as [-> | H0]; [reflexivity |].
  rewrite Fibonacci_clause_1_equation_2.
  destruct (N.eq_dec x 1) as [-> | H1]; [reflexivity |].
  rewrite Fibonacci_clause_1_clause_2_equation_2.
  apply N.eqb_neq in H0, H1. rewrite H0, H1. reflexivity.
Qed.

Lemma fib_pair_snd (n : nat) : snd (fib_pair n) = fib (S n).
Proof. unfold fib. simpl. destruct (fib_pair n). reflexivity. Qed.

Lemma fib_0 : fib 0 = 0.
Proof. reflexivity. Qed.

Lemma fib_1 : fib 1 = 1.
Proof. reflexivity. Qed.

Lemma fib_SS (n : nat) : fib (S (S n)) = fib (S n) + fib n.
Proof.
  rewrite <- (fib_pair_snd (S n)). simpl.
  pose proof (fib_pair_snd n) as Hs. unfold fib in *.
  destruct (fib_pair n) as [a b]. simpl in *. lia.
Qed.

Lemma sub_exact (x k : N) :
  k <= x -> x < Int.size_t_modulus -> Int.sub x k = x - k.
Proof.
  intros Hk Hx. unfold Int.sub.
  assert (HM : Int.size_t_modulus = 18446744073709551616) by reflexivity.
  rewrite (N.mod_small k) by lia.
  replace (x + (Int.size_t_modulus - k)) with ((x - k) + 1 * Int.size_t_modulus) by lia.
  rewrite N.Div0.mod_add, N.mod_small; lia.
Qed.

(** On the range of [std::size_t], [Fibonacci] computes the Fibonacci
    numbers modulo 2^64. *)
Lemma Fibonacci_fib (x : N) :
  x < Int.size_t_modulus ->
  Fibonacci x = fib (N.to_nat x) mod Int.size_t_modulus.
Proof.
  induction x as [x IH] using (well_founded_induction N.lt_wf_0).
  intros Hx. rewrite Fibonacci_body.
  destruct (N.eqb_spec x 0) as [-> | H0]; [reflexivity |].
  destruct (N.eqb_spec x 1) as [-> | H1]; [reflexivity |].
  assert (Hs1 : Int.sub x 1 = x - 1) by (apply sub_exact; lia).
  assert (Hs2 : Int.sub x 2 = x - 2) by (apply sub_exact; lia).
  rewrite Hs1, Hs2, !IH by lia.
  unfold Int.add. rewrite <- N.Div0.add_mod.
  replace (N.to_nat x) with (S (S (N.to_nat (x - 2)))) by lia.
  replace (N.to_nat (x - 1)) with (S (N.to_nat (x - 2))) by lia.
  rewrite fib_SS. reflexivity.
Qed.

(** ** Integer conversions *)

Lemma int_of_size_t_small (n : N) :
  (Z.of_N n <= Int.INT_MAX)%Z -> Int.int_of_size_t n = Z.of_N n.
Proof.
  unfold Int.int_of_size_t, Int.INT_MAX. intros Hn.
  rewrite Z.mod_small by lia.
  destruct (Z.ltb_spec (Z.of_N n) (2 ^ 31)); lia.
Qed.

Lemma size_t_of_int_nonneg (z : Z) :
  (0 <= z < 2 ^ 64)%Z -> Int.size_t_of_int z = Z.to_N z.
Proof. intros Hz. unfold Int.size_t_of_int. rewrite Z.mod_small; [reflexivity | lia]. Qed.

Lemma size_t_of_int_neg (z : Z) :
  (- 2 ^ 63 <= z < 0)%Z -> Int.size_t_of_int z = Z.to_N (z + 2 ^ 64).
Proof.
  intros Hz. unfold Int.size_t_of_int.
  rewrite <- (Z.mod_add z 1 (2 ^ 64)) by lia.
  rewrite Z.mod_small; [f_equal; lia | lia].
Qed.

Lemma int_roundtrip (n : N) :
  (Z.of_N n <= Int.INT_MAX)%Z ->
  Int.size_t_of_int (Int.int_of_size_t n) = n.
Proof.
  intros Hn. rewrite int_of_size_t_small by assumption.
  unfold Int.INT_MAX in Hn. rewrite size_t_of_int_nonneg by lia. lia.
Qed.

(** ** The two paths of a call *)

Lemma size_push_back (results : list Z) (v : Z) :
  size (push_back results v) = size results + 1.
Proof. unfold size, push_back. rewrite length_app. simpl. lia. Qed.

(** While the size fits in an [int], the test compares [x] with the size. *)
Lemma cached_fits (results : list Z) (x : N) :
  fits_int results -> cached results x = (x <? size results).
Proof. intros Hfit. unfold cached. rewrite int_roundtrip; [reflexivity | exact Hfit]. Qed.

Lemma at_index_lt (results : list Z) (x : N) :
  x < size results -> is_Some (at_index results x).
Proof. unfold size, at_index. intros Hx. apply lookup_lt_is_Some. lia. Qed.

Lemma at_index_ge (results : list Z) (x : N) :
  size results <= x -> at_index results x = None.
Proof. unfold size, at_index. intros Hx. apply lookup_ge_None. lia. Qed.

Lemma at_index_push_back_old (results : list Z) (v : Z) (x : N) (w : Z) :
  at_index results x = Some w -> at_index (push_back results v) x = Some w.
Proof. unfold at_index, push_back. intros Hx. apply lookup_app_l_Some. exact Hx. Qed.

Lemma at_index_push_back_new (results : list Z) (v : Z) :
  at_index (push_back results v) (size results) = Some v.
Proof.
  unfold at_index, push_back, size. rewrite Nat2N.id.
  rewrite lookup_app_r by lia. rewrite Nat.sub_diag. reflexivity.
Qed.

(** A hit leaves the vector alone and makes no invocation of [Fibonacci]. *)
Lemma hit (results : list Z) (x : N) :
  cached results x = true ->
  Fibonacci_memoized_version results x
    = (Int.size_t_of_int <$> at_index results x, results)
  /\ Fibonacci_memoized_version_calls results x = [].
Proof.
  intros Hc. unfold Fibonacci_memoized_version, Fibonacci_memoized_version_calls.
  rewrite Hc. split; reflexivity.
Qed.

(** A miss appends one entry, whatever [x] is, and then reads at [x]. *)
Lemma miss (results : list Z) (x : N) :
  cached results x = false ->
  Fibonacci_memoized_version results x
    = (Int.size_t_of_int <$> at_index (push_back results (new_entry x)) x,
       push_back results (new_entry x)).
Proof. intros Hc. unfold Fibonacci_memoized_version. rewrite Hc. reflexivity. Qed.

(** A miss just past the end reads the entry it appended. *)
Lemma miss_at_end (results : list Z) (x : N) :
  fits_int results -> x = size results ->
  Fibonacci_memoized_version results x
    = (Some (Int.size_t_of_int (new_entry x)), push_back results (new_entry x)).
Proof.
  intros Hfit ->. rewrite miss.
  - rewrite at_index_push_back_new. reflexivity.
  - rewrite cached_fits by assumption. apply N.ltb_irrefl.
Qed.

(** A miss further out appends one entry and reads past the end. *)
Lemma miss_beyond (results : list Z) (x : N) :
  fits_int results -> size results < x ->
  Fibonacci_memoized_version results x
    = (None, push_back results (new_entry x)).
Proof.
  intros Hfit Hx. rewrite miss.
  - rewrite at_index_ge; [reflexivity |]. rewrite size_push_back. lia.
  - rewrite cached_fits by assumption. apply N.ltb_ge. lia.
Qed.

(** On a miss at [x >= 2], the appended entry is [Fibonacci(x)] narrowed to
    [int]. *)
Lemma new_entry_Fibonacci (x : N) :
  2 <= x -> new_entry x = Int.int_of_size_t (Fibonacci x).
Proof.
  intros Hx. unfold new_entry. rewrite (Fibonacci_body x).
  destruct (N.eqb_spec x 0); [lia |].
  destruct (N.eqb_spec x 1); [lia |]. reflexivity.
Qed.

(** ** The vector of an evaluator used within its range *)

Lemma fib_cache_length (k : nat) : length (fib_cache k) = k.
Proof. unfold fib_cache. rewrite length_fmap, length_seq. reflexivity. Qed.

Lemma fib_cache_S (k : nat) :
  fib_cache (S k)
  = push_back (fib_cache k) (Int.int_of_size_t (Fibonacci (N.of_nat k))).
Proof. unfold fib_cache, push_back. rewrite seq_S, fmap_app. reflexivity. Qed.

Lemma fib_cache_at (k : nat) (x : N) :
  x < N.of_nat k ->
  at_index (fib_cache k) x = Some (Int.int_of_size_t (Fibonacci x)).
Proof.
  intros Hx. unfold at_index, fib_cache.
  rewrite list_lookup_fmap, lookup_seq_lt by lia.
  simpl. rewrite N2Nat.id. reflexivity.
Qed.

(** Such a vector holds, at every index below its size, the term of that
    index narrowed to [int]. *)
Lemma reachable_fib_cache (results : list Z) :
  reachable results ->
  2 <= size results /\ results = fib_cache (length results).
Proof.
  induction 1 as [| results x Hreach [IHsize IHeq] Hfit Hx].
  - split; [unfold size; simpl; lia | reflexivity].
  - destruct (N.eq_dec x (size results)) as [Heq | Hne].
    + rewrite miss_at_end by assumption. simpl.
      rewrite new_entry_Fibonacci by lia. split.
      * rewrite size_push_back. lia.
      * unfold push_back at 2. rewrite length_app, Nat.add_1_r, fib_cache_S.
        rewrite <- IHeq. subst x. reflexivity.
    + destruct (hit results x) as [-> _]; [| simpl; auto].
      rewrite cached_fits by assumption. apply N.ltb_lt. lia.
Qed.

(** Conversely, calling on [2], [3], ... in turn reaches every such vector
    whose size fits in an [int]. *)
Lemma fib_cache_reachable (k : nat) :
  (2 <= k)%nat -> (Z.of_nat k <= Int.INT_MAX + 1)%Z -> reachable (fib_cache k).
Proof.
  induction k as [| k IH]; [lia |].
  intros Hk Hmax. destruct (Nat.eq_dec k 1%nat) as [-> | Hk1]; [apply reachable_init |].
  assert (Hfit : fits_int (fib_cache k)).
  { unfold fits_int, size. rewrite fib_cache_length. lia. }
  pose proof (reachable_call (fib_cache k) (N.of_nat k)) as Hstep.
  rewrite miss_at_end in Hstep;
    [| assumption | unfold size; rewrite fib_cache_length; reflexivity].
  simpl in Hstep. rewrite new_entry_Fibonacci in Hstep by lia.
  rewrite fib_cache_S. apply Hstep.
  - apply IH; lia.
  - exact Hfit.
  - unfold size. rewrite fib_cache_length. lia.
Qed.

(** The terms up to index 46 fit in an [int]; the term of index 47 does
    not. *)
Lemma Fibonacci_fits_int (x : N) :
  x <= 46 -> (Z.of_N (Fibonacci x) <= Int.INT_MAX)%Z.
Proof.
  intros Hx. rewrite Fibonacci_fib by (change Int.size_t_modulus with 18446744073709551616; lia).
  assert (Hall : forallb
            (fun i => (Z.of_N (fib i mod Int.size_t_modulus) <=? Int.INT_MAX)%Z)
            (seq 0 47) = true) by (vm_compute; reflexivity).
  rewrite forallb_forall in Hall.
  apply Z.leb_le, Hall, in_seq. lia.
Qed.

Lemma Fibonacci_47 : Fibonacci 47 = 2971215073.
Proof. rewrite Fibonacci_fib by reflexivity. vm_compute. reflexivity. Qed.

(** The recurrence holds without wrap-around up to index 46. *)
Lemma Fibonacci_recurrence_small (n : N) :
  2 <= n -> n <= 46 -> Fibonacci n = Fibonacci (n - 1) + Fibonacci (n - 2).
Proof.
  intros H2 H46. rewrite (Fibonacci_body n).
  destruct (N.eqb_spec n 0); [lia |]. destruct (N.eqb_spec n 1); [lia |].
  assert (HM : Int.size_t_modulus = 18446744073709551616) by reflexivity.
  rewrite !sub_exact by lia. unfold Int.add.
  pose proof (Fibonacci_fits_int (n - 1)) as F1.
  pose proof (Fibonacci_fits_int (n - 2)) as F2.
  unfold Int.INT_MAX in F1, F2. apply N.mod_small. lia.
Qed.

(** A call within range, on the vector of the first [k] terms: it returns
    the term of index [x], narrowed to [int] and converted back, and leaves
    the vector of the first [k] terms, or of the first [k + 1] when [x] is
    [k]. *)
Lemma call_on_fib_cache (k : nat) (x : N) :
  (2 <= k)%nat -> (Z.of_nat k <= Int.INT_MAX)%Z -> x <= N.of_nat k ->
  Fibonacci_memoized_version (fib_cache k) x
  = (Some (Int.size_t_of_int (Int.int_of_size_t (Fibonacci x))),
     fib_cache (if x =? N.of_nat k then S k else k)).
Proof.
  intros Hk Hmax Hx.
  assert (Hsize : size (fib_cache k) = N.of_nat k).
  { unfold size. rewrite fib_cache_length. reflexivity. }
  assert (Hfit : fits_int (fib_cache k)).
  { unfold fits_int. rewrite Hsize. lia. }
  destruct (N.eqb_spec x (N.of_nat k)) as [Heq | Hne].
  - rewrite miss_at_end by (assumption || congruence).
    rewrite new_entry_Fibonacci by lia. rewrite fib_cache_S.
    subst x. reflexivity.
  - destruct (hit (fib_cache k) x) as [-> _].
    + rewrite cached_fits by assumption. apply N.ltb_lt. lia.
    + rewrite fib_cache_at by lia. reflexivity.
Qed.

Lemma within_range_value (results : list Z) (x : N) :
  reachable results -> fits_int results -> x <= size results ->
  (Fibonacci_memoized_version results x).1
  = Some (Int.size_t_of_int (Int.int_of_size_t (Fibonacci x))).
Proof.
  intros Hreach Hfit Hx.
  destruct (reachable_fib_cache results Hreach) as [Hsize Hcache].
  unfold fits_int, size in *. rewrite Hcache, call_on_fib_cache by lia.
  reflexivity.
Qed.

Lemma within_range_small_value (results : list Z) (x : N) :
  reachable results -> fits_int results -> x <= size results -> x <= 46 ->
  (Fibonacci_memoized_version results x).1 = Some (Fibonacci x).
Proof.
  intros Hreach Hfit Hx H46. rewrite within_range_value by assumption.
  rewrite int_roundtrip; [reflexivity | apply Fibonacci_fits_int, H46].
Qed.

Lemma size_call (results : list Z) (x : N) :
  fits_int results -> x <= size results ->
  size (Fibonacci_memoized_version results x).2
  = if x =? size results then size results + 1 else size results.
Proof.
  intros Hfit Hx. destruct (N.eqb_spec x (size results)) as [Heq | Hne].
  - rewrite miss_at_end by assumption. apply size_push_back.
  - destruct (hit results x) as [-> _]; [| reflexivity].
    rewrite cached_fits by assumption. apply N.ltb_lt. lia.
Qed.

(** ** Calls never shrink or rewrite the vector *)

Lemma call_prefix (results : list Z) (x : N) :
  results `prefix_of` (Fibonacci_memoized_version results x).2.
Proof.
  unfold Fibonacci_memoized_version.
  destruct (cached results x); simpl; [reflexivity |].
  unfold push_back. apply prefix_app_r. reflexivity.
Qed.

Lemma run_cons (results : list Z) (x : N) (rest : list N) :
  (run results (x :: rest)).2
  = (run (Fibonacci_memoized_version results x).2 rest).2.
Proof.
  simpl. destruct (Fibonacci_memoized_version results x) as [r results'].
  simpl. destruct (run results' rest). reflexivity.
Qed.

Lemma run_cons_returns (results : list Z) (x : N) (rest : list N) :
  (run results (x :: rest)).1
  = (Fibonacci_memoized_version results x).1
      :: (run (Fibonacci_memoized_version results x).2 rest).1.
Proof.
  simpl. destruct (Fibonacci_memoized_version results x) as [r results'].
  simpl. destruct (run results' rest). reflexivity.
Qed.

Lemma run_prefix (results : list Z) (calls : list N) :
  results `prefix_of` (run results calls).2.
Proof.
  revert results. induction calls as [| x rest IH]; intros results.
  - reflexivity.
  - rewrite run_cons. etransitivity; [apply call_prefix | apply IH].
Qed.

(** ** The cost of a miss *)

Lemma Fibonacci_calls_body (x : N) :
  Fibonacci_calls x =
  if x =? 0 then [x]
  else if x =? 1 then [x]
  else x :: Fibonacci_calls (Int.sub x 1) ++ Fibonacci_calls (Int.sub x 2).
Proof.
  rewrite Fibonacci_calls_equation_1.
  destruct (N.eq_dec x 0) as [-> | H0]; [reflexivity |].
  rewrite Fibonacci_calls_clause_1_equation_2.
  destruct (N.eq_dec x 1) as [-> | H1]; [reflexivity |].
  rewrite Fibonacci_calls_clause_1_clause_2_equation_2.
  apply N.eqb_neq in H0, H1. rewrite H0, H1. reflexivity.
Qed.

(** The call [Fibonacci(x)] makes [2 * fib (x + 1) - 1] invocations. *)
Lemma Fibonacci_calls_length (x : N) :
  x < Int.size_t_modulus ->
  N.of_nat (length (Fibonacci_calls x)) + 1 = 2 * fib (S (N.to_nat x)).
Proof.
  induction x as [x IH] using (well_founded_induction N.lt_wf_0).
  intros Hx. rewrite Fibonacci_calls_body.
  destruct (N.eqb_spec x 0) as [-> | H0]; [reflexivity |].
  destruct (N.eqb_spec x 1) as [-> | H1]; [reflexivity |].
  rewrite !sub_exact by lia. simpl length. rewrite length_app.
  pose proof (IH (x - 1)) as IH1. pose proof (IH (x - 2)) as IH2.
  replace (N.to_nat x) with (S (S (N.to_nat (x - 2)))) by lia.
  replace (N.to_nat (x - 1)) with (S (N.to_nat (x - 2))) in IH1 by lia.
  rewrite (fib_SS (S _)). lia.
Qed.

(** A miss just past the end, the only miss of an evaluator used within
    its range, makes [2 * fib (x + 1) - 2] invocations of [Fibonacci], all
    of them on indices that the vector already holds. *)
Lemma miss_at_end_cost (results : list Z) (x : N) :
  fits_int results -> x = size results -> 2 <= x ->
  N.of_nat (length (Fibonacci_memoized_version_calls results x)) + 2
  = 2 * fib (S (N.to_nat x)).
Proof.
  intros Hfit Heq Hx. unfold Fibonacci_memoized_version_calls.
  rewrite cached_fits by assumption. subst x. rewrite N.ltb_irrefl.
  assert (Hlt : size results < Int.size_t_modulus).
  { unfold fits_int, Int.INT_MAX in Hfit.
    change Int.size_t_modulus with 18446744073709551616. lia. }
  rewrite !sub_exact by lia. rewrite length_app.
  pose proof (Fibonacci_calls_length (size results - 1)) as C1.
  pose proof (Fibonacci_calls_length (size results - 2)) as C2.
  replace (N.to_nat (size results)) with (S (S (N.to_nat (size results - 2)))) by lia.
  replace (N.to_nat (size results - 1)) with (S (N.to_nat (size results - 2))) in C1 by lia.
  rewrite (fib_SS (S _)). lia.
Qed.

(** With the terms computed in linear time, the vectors [fib_cache k] can
    be evaluated. *)
Lemma fib_cache_fib (k : nat) :
  (Z.of_nat k <= Int.INT_MAX)%Z ->
  fib_cache k = (fun i => Int.int_of_size_t (fib i mod Int.size_t_modulus)) <$> seq 0 k.
Proof.
  intros Hk. unfold fib_cache. apply list_fmap_ext.
  intros i j Hi. apply lookup_seq in Hi as [-> Hi]. simpl.
  rewrite Fibonacci_fib, Nat2N.id; [reflexivity |].
  unfold Int.INT_MAX in Hk. change Int.size_t_modulus with 18446744073709551616. lia.
Qed.

(** * The claims of the specification *)

(** ** Calls within the range of the vector *)

(** C9. Indexing safety: when [x] is at most the number of cached entries
    (and that number is representable as an [int], so that the cast in the
    test keeps it), the one vector read of the call is inside the vector:
    on a hit it is [results[x]] with [x] below the size, on a miss [x] is
    the size and the read finds the entry that [push_back] just appended.
    The call therefore returns a value. *)
Theorem indexing_in_bounds (results : list Z) (x : N) :
  fits_int results ->
  x <= size results ->
  is_Some (Fibonacci_memoized_version results x).1
  /\ (if cached results x
      then x < size results /\ is_Some (at_index results x)
      else x = size results
           /\ at_index (push_back results (new_entry x)) x = Some (new_entry x)).
Proof.
  intros Hfit Hx. rewrite (cached_fits results x Hfit).
  destruct (N.ltb_spec x (size results)) as [Hlt | Hge].
  - destruct (at_index_lt results x Hlt) as [v Hv].
    destruct (hit results x) as [-> _].
    + rewrite cached_fits by assumption. apply N.ltb_lt, Hlt.
    + simpl. rewrite Hv. split; [eexists; reflexivity | split; [exact Hlt | eauto]].
  - assert (Heq : x = size results) by lia.
    rewrite miss_at_end by assumption. simpl.
    split; [eexists; reflexivity | split; [exact Heq |]].
    subst x. apply at_index_push_back_new.
Qed.

Lemma indexing_in_bounds_witness :
  fits_int [0; 1; 1]%Z /\ 3 <= size [0; 1; 1]%Z
  /\ is_Some (Fibonacci_memoized_version [0; 1; 1]%Z 3).1.
Proof.
  assert (Hfit : fits_int [0; 1; 1]%Z) by (unfold fits_int, Int.INT_MAX; simpl; lia).
  assert (Hx : 3 <= size [0; 1; 1]%Z) by (unfold size; simpl; lia).
  split; [exact Hfit | split; [exact Hx |]].
  apply (indexing_in_bounds [0; 1; 1]%Z 3 Hfit Hx).
Defined.

(** Within that range the properties of a memoizing evaluator hold: after
    the call the vector holds every index up to [x], and a second call on
    [x] is a hit that returns the same value, leaves the vector alone and
    makes no invocation of [Fibonacci]. *)
Lemma within_range_keys (results : list Z) (x i : N) :
  fits_int results -> x <= size results -> i <= x ->
  is_Some (at_index (Fibonacci_memoized_version results x).2 i).
Proof.
  intros Hfit Hx Hi. apply at_index_lt.
  destruct (N.eq_dec x (size results)) as [Heq | Hne].
  - rewrite miss_at_end by assumption. simpl. rewrite size_push_back. lia.
  - destruct (hit results x) as [-> _]; [| simpl; lia].
    rewrite cached_fits by assumption. apply N.ltb_lt. lia.
Qed.

Lemma within_range_idempotent (results : list Z) (x : N) :
  (Z.of_N (size results) < Int.INT_MAX)%Z -> x <= size results ->
  Fibonacci_memoized_version (Fibonacci_memoized_version results x).2 x
    = Fibonacci_memoized_version results x
  /\ Fibonacci_memoized_version_calls (Fibonacci_memoized_version results x).2 x = [].
Proof.
  intros Hsize Hx.
  assert (Hfit : fits_int results) by (unfold fits_int; lia).
  destruct (N.eq_dec x (size results)) as [Heq | Hne].
  - rewrite (miss_at_end results x) by assumption. simpl.
    assert (Hc : cached (push_back results (new_entry x)) x = true).
    { rewrite cached_fits; [| unfold fits_int; rewrite size_push_back; lia].
      apply N.ltb_lt. rewrite size_push_back. lia. }
    destruct (hit _ _ Hc) as [-> ->]. split; [| reflexivity].
    subst x. rewrite at_index_push_back_new. reflexivity.
  - assert (Hc : cached results x = true).
    { rewrite cached_fits by assumption. apply N.ltb_lt. lia. }
    destruct (hit _ _ Hc) as [Hcall Hcalls]. rewrite Hcall. simpl.
    split; [exact Hcall | exact Hcalls].
Qed.

(** C1, as the code has it. On an evaluator whose calls so far were within
    range, the calls on 0 and 1 return 0 and 1, and for every [n] from 2 to
    46 that is at most the number of cached entries, the calls on [n],
    [n - 1] and [n - 2] return values [a], [b] and [c] with [a = b + c].
    From index 47 on the terms do not fit in the [int] elements of the
    vector. *)
Theorem memoized_recurrence (results : list Z) (n : N) :
  reachable results ->
  fits_int results ->
  (run results [0; 1]).1 = [Some 0; Some 1]
  /\ (2 <= n -> n <= 46 -> n <= size results ->
      exists a b c,
        (run results [n; n - 1; n - 2]).1 = [Some a; Some b; Some c]
        /\ a = b + c).
Proof.
  intros Hreach Hfit.
  destruct (reachable_fib_cache results Hreach) as [Hsize _].
  split.
  - rewrite !run_cons_returns. simpl (run _ []).1.
    assert (H0 : (0 : N) <= size results) by lia.
    rewrite (within_range_small_value results 0) by (assumption || lia).
    pose proof (size_call results 0 Hfit H0) as Hs.
    destruct (N.eqb_spec 0 (size results)); [lia |].
    rewrite (within_range_small_value _ 1);
      [reflexivity | apply reachable_call; assumption | | lia | lia].
    unfold fits_int in *. lia.
  - intros H2 H46 Hn.
    set (s1 := (Fibonacci_memoized_version results n).2).
    assert (Hreach1 : reachable s1) by (apply reachable_call; assumption).
    assert (Hsize1 : size results <= size s1 /\ fits_int s1).
    { subst s1. unfold fits_int. rewrite (size_call results n Hfit Hn).
      unfold fits_int, Int.INT_MAX in *.
      destruct (N.eqb_spec n (size results)); lia. }
    destruct Hsize1 as [Hle1 Hfit1].
    set (s2 := (Fibonacci_memoized_version s1 (n - 1)).2).
    assert (Hn1 : n - 1 <= size s1) by lia.
    assert (Hreach2 : reachable s2) by (apply reachable_call; assumption).
    assert (Hsize2 : size s2 = size s1).
    { subst s2. rewrite (size_call s1 (n - 1) Hfit1 Hn1).
      destruct (N.eqb_spec (n - 1) (size s1)); [lia | reflexivity]. }
    exists (Fibonacci n), (Fibonacci (n - 1)), (Fibonacci (n - 2)).
    split; [| apply Fibonacci_recurrence_small; assumption].
    rewrite !run_cons_returns. simpl (run _ []).1. fold s1. fold s2.
    rewrite (within_range_small_value results n) by assumption.
    rewrite (within_range_small_value s1 (n - 1)) by (assumption || lia).
    rewrite (within_range_small_value s2 (n - 2));
      [reflexivity | assumption | unfold fits_int in *; lia | lia | lia].
Qed.

Lemma memoized_recurrence_witness :
  reachable results_init /\ fits_int results_init
  /\ 2 <= 2 /\ 2 <= 46 /\ 2 <= size results_init
  /\ exists a b c,
       (run results_init [2; 2 - 1; 2 - 2]).1 = [Some a; Some b; Some c]
       /\ a = b + c.
Proof.
  assert (Hfit : fits_int results_init) by (unfold fits_int, Int.INT_MAX; simpl; lia).
  assert (Hx : 2 <= size results_init) by (unfold size; simpl; lia).
  split; [apply reachable_init | split; [exact Hfit |]].
  split; [lia | split; [lia | split; [exact Hx |]]].
  apply (memoized_recurrence results_init 2 reachable_init Hfit); [lia | lia | exact Hx].
Defined.

(** C1, as the claim states it, fails at 47 on an evaluator used within
    range: with the terms of indices 0 to 46 in the vector, the call on 47
    returns 18446744072385799393 (the [int] -1323752223 converted to
    [std::size_t]), and the calls on 46 and 45 return 1836311903 and
    1134903170, whose sum is 2971215073. *)
Lemma memoized_recurrence_fails_at_47 :
  reachable (fib_cache 47)
  /\ fits_int (fib_cache 47)
  /\ 47 <= size (fib_cache 47)
  /\ (run (fib_cache 47) [47; 46; 45]).1
     = [Some 18446744072385799393; Some 1836311903; Some 1134903170]
  /\ 18446744072385799393 <> 1836311903 + 1134903170.
Proof.
  split; [apply fib_cache_reachable; unfold Int.INT_MAX; lia |].
  split; [unfold fits_int, size, Int.INT_MAX; rewrite fib_cache_length; lia |].
  split; [unfold size; rewrite fib_cache_length; lia |].
  split; [| lia].
  rewrite !run_cons_returns. simpl (run _ []).1.
  rewrite (call_on_fib_cache 47 47) by (unfold Int.INT_MAX; lia).
  change (if 47 =? N.of_nat 47 then 48%nat else 47%nat) with 48%nat.
  cbn [fst snd].
  rewrite (call_on_fib_cache 48 46) by (unfold Int.INT_MAX; lia).
  change (if 46 =? N.of_nat 48 then 49%nat else 48%nat) with 48%nat.
  cbn [fst snd].
  rewrite (call_on_fib_cache 48 45) by (unfold Int.INT_MAX; lia).
  cbn [fst snd].
  rewrite !Fibonacci_fib by reflexivity.
  vm_compute. reflexivity.
Qed.

(** C10, as the code has it. On a vector reached from the fresh evaluator
    by calls within range, a call with [x] at most the number of cached
    entries returns [Fibonacci(x)] narrowed to [int], the element type of
    the vector, and converted back to [std::size_t]. That is [Fibonacci(x)]
    itself as long as [Fibonacci(x)] is at most [INT_MAX], which holds for
    every [x] up to 46. *)
Theorem memoized_agrees_with_naive (results : list Z) (x : N) :
  reachable results ->
  fits_int results ->
  x <= size results ->
  (Fibonacci_memoized_version results x).1
    = Some (Int.size_t_of_int (Int.int_of_size_t (Fibonacci x)))
  /\ ((Z.of_N (Fibonacci x) <= Int.INT_MAX)%Z ->
      (Fibonacci_memoized_version results x).1 = Some (Fibonacci x))
  /\ (x <= 46 -> (Fibonacci_memoized_version results x).1 = Some (Fibonacci x)).
Proof.
  intros Hreach Hfit Hx.
  pose proof (within_range_value results x Hreach Hfit Hx) as Hret.
  split; [exact Hret |].
  split.
  - intros Hle. rewrite Hret, int_roundtrip by exact Hle. reflexivity.
  - intros H46. apply within_range_small_value; assumption.
Qed.

Lemma memoized_agrees_with_naive_witness :
  reachable results_init /\ fits_int results_init /\ 2 <= size results_init
  /\ (Fibonacci_memoized_version results_init 2).1 = Some (Fibonacci 2).
Proof.
  assert (Hfit : fits_int results_init) by (unfold fits_int, Int.INT_MAX; simpl; lia).
  assert (Hx : 2 <= size results_init) by (unfold size; simpl; lia).
  split; [apply reachable_init | split; [exact Hfit | split; [exact Hx |]]].
  destruct (memoized_agrees_with_naive results_init 2 reachable_init Hfit Hx)
    as (_ & _ & H46).
  apply H46. lia.
Defined.

(** C10, as the claim states it, fails at 47: the vector that holds the
    terms of indices 0 to 46 is reached by the calls on 2, ..., 46, the call
    on 47 is within range, [Fibonacci(47)] is 2971215073, and the memoized
    evaluator stores it as the [int] -1323752223 and returns that converted
    to [std::size_t]. *)
Lemma memoized_differs_from_naive_at_47 :
  reachable (fib_cache 47)
  /\ fits_int (fib_cache 47)
  /\ 47 <= size (fib_cache 47)
  /\ Fibonacci 47 = 2971215073
  /\ (Fibonacci_memoized_version (fib_cache 47) 47).1 = Some 18446744072385799393
  /\ (Fibonacci_memoized_version (fib_cache 47) 47).1 <> Some (Fibonacci 47).
Proof.
  assert (Hfit : fits_int (fib_cache 47)).
  { unfold fits_int, size, Int.INT_MAX. rewrite fib_cache_length. lia. }
  assert (Hcall : (Fibonacci_memoized_version (fib_cache 47) 47).1
                  = Some 18446744072385799393).
  { rewrite miss_at_end; [| exact Hfit | unfold size; rewrite fib_cache_length; reflexivity].
    simpl. rewrite new_entry_Fibonacci by lia. rewrite Fibonacci_47.
    vm_compute. reflexivity. }
  split; [apply fib_cache_reachable; unfold Int.INT_MAX; lia |].
  split; [exact Hfit |].
  split; [unfold size; rewrite fib_cache_length; lia |].
  split; [exact Fibonacci_47 |].
  split; [exact Hcall |].
  rewrite Hcall, Fibonacci_47. intros Heq. inversion Heq.
Qed.

(** The vector of that counterexample, written out. *)
Lemma fib_cache_47 :
  fib_cache 47
  = [0; 1; 1; 2; 3; 5; 8; 13; 21; 34; 55; 89; 144; 233; 377; 610; 987; 1597;
     2584; 4181; 6765; 10946; 17711; 28657; 46368; 75025; 121393; 196418;
     317811; 514229; 832040; 1346269; 2178309; 3524578; 5702887; 9227465;
     14930352; 24157817; 39088169; 63245986; 102334155; 165580141; 267914296;
     433494437; 701408733; 1134903170; 1836311903]%Z.
Proof.
  rewrite fib_cache_fib by (unfold Int.INT_MAX; lia). vm_compute. reflexivity.
Qed.

(** ** The vector only grows *)

(** C7. Write-once cache: whatever the calls and their order, an entry that
    the vector holds at some point is still there, with the same value,
    after any further sequence of calls. The vector is only ever extended
    at its end. *)
Theorem cache_write_once (results : list Z) (calls : list N) (i : N) (v : Z) :
  at_index results i = Some v ->
  at_index (run results calls).2 i = Some v.
Proof.
  intros Hi. unfold at_index in *.
  eapply prefix_lookup_Some; [exact Hi | apply run_prefix].
Qed.

Lemma cache_write_once_witness :
  at_index [0; 1; 1]%Z 2 = Some 1%Z
  /\ at_index (run [0; 1; 1]%Z [7; 3; 7; 0]).2 2 = Some 1%Z.
Proof.
  split; [reflexivity |].
  apply (cache_write_once [0; 1; 1]%Z [7; 3; 7; 0] 2 1%Z). reflexivity.
Defined.

(** ** Negative arguments *)

(** C8, as the code has it. No call raises [InvalidArgument], or any error:
    the parameter is an unsigned [std::size_t], so a negative argument [n]
    is not rejected but arrives as the index [n + 2^64], and a vector whose
    size fits in an [int] does not hold that index: the call goes down the
    miss path. *)
Theorem negative_argument_not_rejected (results : list Z) (n : Z) :
  (forall e, observe (call_with_int results n).1 <> Raises e)
  /\ ((- 2 ^ 63 <= n < 0)%Z ->
      fits_int results ->
      call_with_int results n
        = Fibonacci_memoized_version results (Z.to_N (n + 2 ^ 64))
      /\ cached results (Z.to_N (n + 2 ^ 64)) = false).
Proof.
  split.
  - intros e. destruct (call_with_int results n).1; simpl; discriminate.
  - intros Hn Hfit. unfold call_with_int. rewrite size_t_of_int_neg by exact Hn.
    split; [reflexivity |].
    rewrite cached_fits by exact Hfit. apply N.ltb_ge.
    unfold fits_int, Int.INT_MAX in Hfit. lia.
Qed.

Lemma negative_argument_not_rejected_witness :
  (- 2 ^ 63 <= -1 < 0)%Z /\ fits_int results_init
  /\ cached results_init (Z.to_N (-1 + 2 ^ 64)) = false.
Proof.
  assert (Hn : (- 2 ^ 63 <= -1 < 0)%Z) by lia.
  assert (Hfit : fits_int results_init) by (unfold fits_int, Int.INT_MAX; simpl; lia).
  split; [exact Hn | split; [exact Hfit |]].
  apply (negative_argument_not_rejected results_init (-1)); assumption.
Defined.

(** C8, as the claim states it, fails at -1: the argument arrives as
    2^64 - 1, which the test of the fresh evaluator does not find below the
    size 2, so the call is not refused and goes down the miss path, to
    [Fibonacci(2^64 - 2) + Fibonacci(2^64 - 3)]. With [Fibonacci] taken as
    the total function that it is without a bound on the call stack, the
    call ends in the read of [results[2^64 - 1]], past the end of the
    vector. Nothing is reported to the caller. *)
Lemma negative_argument_reads_past_end :
  (-1 < 0)%Z
  /\ Int.size_t_of_int (-1) = 18446744073709551615
  /\ cached results_init (Int.size_t_of_int (-1)) = false
  /\ observe (call_with_int results_init (-1)).1 = UndefinedRead
  /\ observe (call_with_int results_init (-1)).1 <> Raises InvalidArgument.
Proof.
  assert (Hfit : fits_int results_init) by (unfold fits_int, Int.INT_MAX; simpl; lia).
  assert (Harg : Int.size_t_of_int (-1) = 18446744073709551615) by reflexivity.
  unfold call_with_int. rewrite Harg.
  rewrite miss_beyond; [| exact Hfit | unfold size; simpl; lia].
  split; [lia |]. split; [reflexivity |]. split; [reflexivity |].
  split; [reflexivity | discriminate].
Qed.

(** ** Calls beyond the end of the vector

    The miss path calls the naive [Fibonacci] on [x - 1] and [x - 2], not
    the memoized evaluator, so nothing fills the vector up to [x - 1]
    before [push_back]: the new entry lands at the old size, which is [x]
    only when the caller asked for the very next index. The evaluations
    below run the code on inputs at which the properties of a memoizing
    evaluator break. *)

(** On a fresh evaluator the call on 3 appends
    [Fibonacci(2) + Fibonacci(1) = 2] at index 2 and reads [results[3]] past
    the end of the three-element vector. The calls on 2, 1 and 0 that
    follow return 2, 1 and 0: the entry of index 2 is the term of index 3. *)
Lemma fresh_call_on_3 :
  Fibonacci_memoized_version results_init 3 = (None, [0; 1; 2]%Z)
  /\ run results_init [3; 2; 1; 0]
     = ([None; Some 2; Some 1; Some 0], [0; 1; 2]%Z).
Proof.
  split.
  - rewrite miss_beyond.
    + rewrite new_entry_Fibonacci by lia. vm_compute. reflexivity.
    + unfold fits_int, Int.INT_MAX. simpl. lia.
    + unfold size. simpl. lia.
  - vm_compute. reflexivity.
Qed.

(** C2. Each index computed at most once, O(n) new evaluations: the loop
    of [main], which calls the memoized evaluator on 0, ..., 19 in turn and
    so stays within range, makes 35380 invocations of [Fibonacci], 6763 of
    them on index 2, whose entry is in the vector from the third call on.
    The call on 19 alone makes 13528 of them. *)
Theorem main_loop_invocations :
  (let calls := run_calls results_init main_loop in
   (N.of_nat (length calls), N.of_nat (count_occ N.eq_dec calls 2)))
  = (35380, 6763)
  /\ N.of_nat (length (Fibonacci_memoized_version_calls (fib_cache 19) 19)) = 13528.
Proof.
  split.
  - vm_compute. reflexivity.
  - assert (Hfit : fits_int (fib_cache 19)).
    { unfold fits_int, size, Int.INT_MAX. rewrite fib_cache_length. lia. }
    pose proof (miss_at_end_cost (fib_cache 19) 19 Hfit) as Hcost.
    unfold size in Hcost. rewrite fib_cache_length in Hcost.
    specialize (Hcost eq_refl ltac:(lia)).
    change (fib (S (N.to_nat 19))) with 6765 in Hcost. lia.
Qed.

(** C3. evaluate(10) then evaluate(5) on a fresh evaluator: the first call
    appends 55 at index 2 and reads [results[10]] past the end; the second
    finds a vector of size 3, misses, makes 14 invocations of [Fibonacci],
    appends 5 at index 3 and reads [results[5]] past the end. *)
Theorem fresh_calls_on_10_then_5 :
  run results_init [10; 5] = ([None; None], [0; 1; 55; 5]%Z)
  /\ cached [0; 1; 55]%Z 5 = false
  /\ Fibonacci_memoized_version_calls [0; 1; 55]%Z 5
     = [4; 3; 2; 1; 0; 1; 2; 1; 0; 3; 2; 1; 0; 1].
Proof. repeat split; vm_compute; reflexivity. Qed.

(** C4. evaluate on 0, 1, 2, 5, 10 in this order on one evaluator: the
    first three calls return 0, 1, 1; the call on 5 appends 5 at index 3
    and reads [results[5]] past the end, the call on 10 appends 55 at
    index 4 and reads [results[10]] past the end. *)
Theorem fresh_calls_on_0_1_2_5_10 :
  run results_init [0; 1; 2; 5; 10]
  = ([Some 0; Some 1; Some 1; None; None], [0; 1; 1; 5; 55]%Z).
Proof. vm_compute. reflexivity. Qed.

(** C5. Keys after evaluate(n) include 0, ..., n: after the call on 10 on
    a fresh evaluator the vector has the three keys 0, 1, 2, and 10 is not
    one of them. (The keys before the call are all kept, as after every
    call.) *)
Theorem fresh_call_on_10_keys :
  (Fibonacci_memoized_version results_init 10).2 = [0; 1; 55]%Z
  /\ at_index (Fibonacci_memoized_version results_init 10).2 10 = None
  /\ (forall i, is_Some (at_index (Fibonacci_memoized_version results_init 10).2 i)
                <-> i < 3).
Proof.
  assert (Hres : (Fibonacci_memoized_version results_init 10).2 = [0; 1; 55]%Z)
    by (vm_compute; reflexivity).
  rewrite Hres. split; [reflexivity | split; [reflexivity |]].
  intros i. unfold at_index. rewrite lookup_lt_is_Some. simpl. lia.
Qed.

(** C6. Idempotence: a second call on 10 right after the first, on a fresh
    evaluator, is a miss again and appends a second 55. *)
Theorem fresh_call_on_10_twice :
  run results_init [10; 10] = ([None; None], [0; 1; 55; 55]%Z)
  /\ (Fibonacci_memoized_version results_init 10).2 = [0; 1; 55]%Z
  /\ (Fibonacci_memoized_version [0; 1; 55]%Z 10).2 = [0; 1; 55; 55]%Z.
Proof. repeat split; vm_compute; reflexivity. Qed.

(** * Further properties of the two evaluators *)

(** ** The naive evaluator and the Fibonacci numbers *)

Lemma fib_S_le (n : nat) : fib n <= fib (S n).
Proof.
  destruct n as [| n]; [rewrite fib_0, fib_1; lia |]. rewrite fib_SS. lia.
Qed.

Lemma fib_mono (n m : nat) : (n <= m)%nat -> fib n <= fib m.
Proof.
  induction 1 as [| m _ IH]; [lia |].
  etransitivity; [exact IH | apply fib_S_le].
Qed.

Lemma fib_93 : fib 93 = 12200160415121876738.
Proof. vm_compute. reflexivity. Qed.

Lemma fib_94 : fib 94 = 19740274219868223167.
Proof. vm_compute. reflexivity. Qed.

(** X1. [Fibonacci] returns the Fibonacci number of its argument up to index
    93; from index 94 on the number is 2^64 or more and the sum on
    [std::size_t] has wrapped, so the value returned is another one. *)
Theorem Fibonacci_exact_up_to_93 (x : N) :
  x < Int.size_t_modulus ->
  (x <= 93 -> Fibonacci x = fib (N.to_nat x))
  /\ (94 <= x -> Fibonacci x < Int.size_t_modulus <= fib (N.to_nat x)).
Proof.
  intros Hx. rewrite (Fibonacci_fib x Hx).
  assert (HM : Int.size_t_modulus = 18446744073709551616) by reflexivity.
  split; intros Hle.
  - apply N.mod_small.
    pose proof (fib_mono (N.to_nat x) 93 ltac:(lia)) as Hm.
    rewrite fib_93 in Hm. lia.
  - split; [apply N.mod_upper_bound; lia |].
    pose proof (fib_mono 94 (N.to_nat x) ltac:(lia)) as Hm.
    rewrite fib_94 in Hm. lia.
Qed.

Lemma Fibonacci_exact_up_to_93_witness :
  90 < Int.size_t_modulus /\ 90 <= 93
  /\ Fibonacci 90 = fib (N.to_nat 90).
Proof.
  assert (Hx : 90 < Int.size_t_modulus) by reflexivity.
  split; [exact Hx | split; [lia |]].
  apply (Fibonacci_exact_up_to_93 90 Hx). lia.
Defined.

Lemma ascending_S (k : nat) : ascending (S k) = ascending k ++ [N.of_nat k].
Proof. unfold ascending. rewrite seq_S, fmap_app. reflexivity. Qed.

(** X2. The loop over the naive evaluator with bound [k] makes
    [2 * fib (k + 2) - k - 2] invocations of [Fibonacci]; with the bound 13
    of [main] that is the 1205 of its comment. *)
Theorem Fibonacci_loop_cost (k : nat) :
  N.of_nat k <= Int.size_t_modulus ->
  N.of_nat (length (Fibonacci_loop_calls k)) + N.of_nat k + 2 = 2 * fib (S (S k)).
Proof.
  unfold Fibonacci_loop_calls.
  induction k as [| k IH]; intros Hk; [reflexivity |].
  rewrite ascending_S, bind_app, length_app. simpl mbind. rewrite app_nil_r.
  pose proof (Fibonacci_calls_length (N.of_nat k) ltac:(lia)) as Hc.
  rewrite Nat2N.id in Hc. specialize (IH ltac:(lia)).
  rewrite (fib_SS (S k)). lia.
Qed.

Lemma Fibonacci_loop_cost_witness :
  N.of_nat 13 <= Int.size_t_modulus
  /\ N.of_nat (length (Fibonacci_loop_calls 13)) = 1205.
Proof.
  assert (Hk : N.of_nat 13 <= Int.size_t_modulus) by (vm_compute; discriminate).
  split; [exact Hk |].
  pose proof (Fibonacci_loop_cost 13 Hk) as Hcost.
  change (fib (S (S 13))) with 610 in Hcost. lia.
Defined.

(** ** The memoized evaluator, called as [main] calls it *)

Lemma run_app (results : list Z) (l1 l2 : list N) :
  run results (l1 ++ l2)
  = ((run results l1).1 ++ (run (run results l1).2 l2).1,
     (run (run results l1).2 l2).2).
Proof.
  revert results. induction l1 as [| x l1 IH]; intros results.
  - simpl. destruct (run results l2). reflexivity.
  - simpl. destruct (Fibonacci_memoized_version results x) as [r results'].
    rewrite IH. destruct (run results' l1) as [rs s1]. simpl.
    destruct (run s1 l2). reflexivity.
Qed.

Lemma run_calls_app (results : list Z) (l1 l2 : list N) :
  run_calls results (l1 ++ l2)
  = run_calls results l1 ++ run_calls (run results l1).2 l2.
Proof.
  revert results. induction l1 as [| x l1 IH]; intros results.
  - reflexivity.
  - simpl. rewrite IH, <- app_assoc.
    destruct (Fibonacci_memoized_version results x) as [r results'].
    simpl. destruct (run results' l1). reflexivity.
Qed.

(** Called on [0], [1], ..., [k - 1] in turn, the fresh evaluator returns
    each term narrowed to [int] and ends with the vector of the first [k]
    terms. *)
Lemma run_ascending (k : nat) :
  (2 <= k)%nat -> (Z.of_nat k <= Int.INT_MAX + 1)%Z ->
  run results_init (ascending k)
  = ((fun i => Some (Int.size_t_of_int (Int.int_of_size_t (Fibonacci i))))
       <$> ascending k,
     fib_cache k).
Proof.
  induction k as [| k IH]; [lia |].
  intros Hk Hmax. destruct (Nat.eq_dec k 1%nat) as [-> | Hk1].
  - vm_compute. reflexivity.
  - rewrite ascending_S, run_app, IH by lia. cbn [fst snd].
    simpl run. rewrite call_on_fib_cache by lia.
    rewrite N.eqb_refl, fmap_app. reflexivity.
Qed.

(** X3. The loop of [main] over the memoized evaluator, for any bound from 2 to
    47: every call returns what the naive [Fibonacci] returns, and the loop
    leaves the vector of the first [k] terms. *)
Theorem ascending_run (k : nat) :
  (2 <= k <= 47)%nat ->
  run results_init (ascending k)
  = ((fun i => Some (Fibonacci i)) <$> ascending k, fib_cache k).
Proof.
  intros Hk. rewrite run_ascending by (unfold Int.INT_MAX; lia).
  f_equal. apply list_fmap_ext. intros j i Hi.
  unfold ascending in Hi. rewrite list_lookup_fmap in Hi.
  destruct (seq 0 k !! j) as [m |] eqn:Hm; [| discriminate].
  apply lookup_seq in Hm as [-> Hm]. simpl in Hi. injection Hi as <-.
  rewrite int_roundtrip; [reflexivity | apply Fibonacci_fits_int; lia].
Qed.

Lemma ascending_run_witness :
  (2 <= 20 <= 47)%nat
  /\ main_loop = ascending 20
  /\ (run results_init main_loop).1
     = (fun i => Some (Fibonacci i)) <$> ascending 20.
Proof.
  assert (Hk : (2 <= 20 <= 47)%nat) by lia.
  split; [exact Hk | split; [reflexivity |]].
  change main_loop with (ascending 20).
  rewrite (ascending_run 20 Hk). reflexivity.
Defined.

(** X4. That loop with bound [k] makes [2 * fib (k + 2) - 2 * k - 2]
    invocations of [Fibonacci]: each miss recomputes its two operands from
    scratch. *)
Theorem ascending_run_cost (k : nat) :
  (2 <= k)%nat -> (Z.of_nat k <= Int.INT_MAX + 1)%Z ->
  N.of_nat (length (run_calls results_init (ascending k))) + 2 * N.of_nat k + 2
  = 2 * fib (S (S k)).
Proof.
  induction k as [| k IH]; [lia |].
  intros Hk Hmax. destruct (Nat.eq_dec k 1%nat) as [-> | Hk1].
  - vm_compute. reflexivity.
  - rewrite ascending_S, run_calls_app, length_app.
    rewrite run_ascending by lia. cbn [fst snd]. simpl run_calls.
    rewrite app_nil_r.
    assert (Hfit : fits_int (fib_cache k)).
    { unfold fits_int, size. rewrite fib_cache_length. lia. }
    pose proof (miss_at_end_cost (fib_cache k) (N.of_nat k) Hfit) as Hcost.
    unfold size in Hcost. rewrite fib_cache_length, Nat2N.id in Hcost.
    specialize (Hcost eq_refl ltac:(lia)). specialize (IH ltac:(lia) ltac:(lia)).
    rewrite (fib_SS (S k)). lia.
Qed.

Lemma ascending_run_cost_witness :
  (2 <= 20)%nat /\ (Z.of_nat 20 <= Int.INT_MAX + 1)%Z
  /\ N.of_nat (length (run_calls results_init (ascending 20))) + 2 * N.of_nat 20 + 2
     = 2 * fib (S (S 20)).
Proof.
  assert (Hk : (2 <= 20)%nat) by lia.
  assert (Hmax : (Z.of_nat 20 <= Int.INT_MAX + 1)%Z) by (unfold Int.INT_MAX; lia).
  split; [exact Hk | split; [exact Hmax |]].
  apply (ascending_run_cost 20 Hk Hmax).
Defined.

(** ** The vector of an evaluator used within range, characterized *)

Lemma reachable_size_bound (results : list Z) :
  reachable results -> (Z.of_N (size results) <= Int.INT_MAX + 1)%Z.
Proof.
  induction 1 as [| results x Hreach IH Hfit Hx].
  - unfold size, Int.INT_MAX. simpl. lia.
  - rewrite size_call by assumption. unfold fits_int in Hfit.
    destruct (x =? size results); lia.
Qed.

(** X5. The vectors that calls within range can build are exactly the vectors
    of the first [k] terms, each narrowed to [int], for [k] from 2 to 2^31:
    an evaluator used within range holds [Fibonacci(i)] at every index
    [i]. *)
Theorem reachable_iff_fib_cache (results : list Z) :
  reachable results
  <-> exists k : nat,
        (2 <= k)%nat /\ (Z.of_nat k <= Int.INT_MAX + 1)%Z /\ results = fib_cache k.
Proof.
  split.
  - intros Hreach. exists (length results).
    destruct (reachable_fib_cache results Hreach) as [Hsize Hcache].
    pose proof (reachable_size_bound results Hreach) as Hb.
    unfold size in *. repeat split; [lia | lia | exact Hcache].
  - intros (k & Hk & Hmax & ->). apply fib_cache_reachable; assumption.
Qed.

(** ** A call beyond the end of the vector *)

(** X6. Whenever [x] is greater than the number of cached entries (on a vector
    whose size fits in an [int]), the call reads [results[x]] past the end
    of the vector, after appending exactly one entry; [x] is still not an
    index of the vector afterwards. *)
Theorem call_beyond_end (results : list Z) (x : N) :
  fits_int results ->
  size results < x ->
  (Fibonacci_memoized_version results x).1 = None
  /\ size (Fibonacci_memoized_version results x).2 = size results + 1
  /\ at_index (Fibonacci_memoized_version results x).2 x = None.
Proof.
  intros Hfit Hx. rewrite miss_beyond by assumption. cbn [fst snd].
  split; [reflexivity |]. split; [apply size_push_back |].
  apply at_index_ge. rewrite size_push_back. lia.
Qed.

Lemma call_beyond_end_witness :
  fits_int results_init /\ size results_init < 4
  /\ (Fibonacci_memoized_version results_init 4).1 = None.
Proof.
  assert (Hfit : fits_int results_init) by (unfold fits_int, Int.INT_MAX; simpl; lia).
  assert (Hx : size results_init < 4) by (unfold size; simpl; lia).
  split; [exact Hfit | split; [exact Hx |]].
  apply (call_beyond_end results_init 4 Hfit Hx).
Defined.

(** ** Calls within range, again *)

(** X7. After a call within range the indices of the vector are exactly those
    below the old size, and [x] itself: nothing else is added. *)
Theorem keys_after_call (results : list Z) (x i : N) :
  fits_int results ->
  x <= size results ->
  is_Some (at_index (Fibonacci_memoized_version results x).2 i)
  <-> i < N.max (size results) (x + 1).
Proof.
  intros Hfit Hx. unfold at_index at 1. rewrite lookup_lt_is_Some.
  pose proof (size_call results x Hfit Hx) as Hs. unfold size at 1 in Hs.
  destruct (N.eqb_spec x (size results)); lia.
Qed.

Lemma keys_after_call_witness :
  fits_int [0; 1; 1]%Z /\ 3 <= size [0; 1; 1]%Z
  /\ (is_Some (at_index (Fibonacci_memoized_version [0; 1; 1]%Z 3).2 3)
      <-> 3 < N.max (size [0; 1; 1]%Z) (3 + 1)).
Proof.
  assert (Hfit : fits_int [0; 1; 1]%Z) by (unfold fits_int, Int.INT_MAX; simpl; lia).
  assert (Hx : 3 <= size [0; 1; 1]%Z) by (unfold size; simpl; lia).
  split; [exact Hfit | split; [exact Hx |]].
  apply (keys_after_call [0; 1; 1]%Z 3 3 Hfit Hx).
Defined.

(** X8. After a call on [x] within range, every call on an index up to [x] is
    a hit: it returns a value, invokes [Fibonacci] not once and leaves the
    vector as it is; on [x] itself it returns what the first call
    returned. *)
Theorem later_calls_hit (results : list Z) (x i : N) :
  (Z.of_N (size results) < Int.INT_MAX)%Z ->
  x <= size results ->
  i <= x ->
  is_Some (Fibonacci_memoized_version (Fibonacci_memoized_version results x).2 i).1
  /\ (Fibonacci_memoized_version (Fibonacci_memoized_version results x).2 i).2
     = (Fibonacci_memoized_version results x).2
  /\ Fibonacci_memoized_version_calls (Fibonacci_memoized_version results x).2 i = []
  /\ (Fibonacci_memoized_version (Fibonacci_memoized_version results x).2 x).1
     = (Fibonacci_memoized_version results x).1.
Proof.
  intros Hsize Hx Hi.
  assert (Hfit : fits_int results) by (unfold fits_int; lia).
  pose proof (size_call results x Hfit Hx) as Hs.
  set (s := (Fibonacci_memoized_version results x).2) in *.
  assert (Hfit' : fits_int s).
  { unfold fits_int. rewrite Hs. destruct (x =? size results); lia. }
  assert (Hlt : i < size s).
  { rewrite Hs. destruct (N.eqb_spec x (size results)); lia. }
  assert (Hc : cached s i = true).
  { rewrite cached_fits by exact Hfit'. apply N.ltb_lt, Hlt. }
  destruct (hit s i Hc) as [Hcall Hcalls]. rewrite Hcall. cbn [fst snd].
  destruct (at_index_lt s i Hlt) as [v Hv]. rewrite Hv.
  split; [eexists; reflexivity |]. split; [reflexivity |].
  split; [exact Hcalls |].
  subst s. destruct (within_range_idempotent results x Hsize Hx) as [-> _].
  reflexivity.
Qed.

Lemma later_calls_hit_witness :
  (Z.of_N (size [0; 1; 1]%Z) < Int.INT_MAX)%Z /\ 3 <= size [0; 1; 1]%Z /\ 2 <= 3
  /\ Fibonacci_memoized_version_calls (Fibonacci_memoized_version [0; 1; 1]%Z 3).2 2
     = [].
Proof.
  assert (Hs : (Z.of_N (size [0; 1; 1]%Z) < Int.INT_MAX)%Z)
    by (unfold size, Int.INT_MAX; simpl; lia).
  assert (Hx : 3 <= size [0; 1; 1]%Z) by (unfold size; simpl; lia).
  assert (Hi : 2 <= 3) by lia.
  split; [exact Hs | split; [exact Hx | split; [exact Hi |]]].
  apply (later_calls_hit [0; 1; 1]%Z 3 2 Hs Hx Hi).
Defined.

(** * The other recursive functions *)

Local Open Scope Z_scope.

Lemma int_in_range (z : Z) :
  Checked.INT_MIN <= z <= Int.INT_MAX -> Checked.int z = Some z.
Proof.
  intros Hz. unfold Checked.int, Checked.in_range.
  destruct (Z.leb_spec Checked.INT_MIN z); [| lia].
  destruct (Z.leb_spec z Int.INT_MAX); [reflexivity | lia].
Qed.

Lemma int_above_range (z : Z) : Int.INT_MAX < z -> Checked.int z = None.
Proof.
  intros Hz. unfold Checked.int, Checked.in_range.
  destruct (Z.leb_spec z Int.INT_MAX); [lia |].
  rewrite andb_false_r. reflexivity.
Qed.

(** ** [sumTo] *)

Lemma sumTo_body (sumto : Z) :
  sumTo sumto =
  if sumto <=? 0 then Some 0
  else if sumto =? 1 then Some 1
  else r ← sumTo (sumto - 1); Checked.add r sumto.
Proof.
  rewrite sumTo_equation_1.
  destruct (Z_le_dec sumto 0) as [Hle | Hgt].
  - rewrite sumTo_clause_1_equation_1.
    destruct (Z.leb_spec sumto 0); [reflexivity | lia].
  - rewrite sumTo_clause_1_equation_2.
    destruct (Z.leb_spec sumto 0); [lia |].
    destruct (Z.eq_dec sumto 1) as [-> | Hne]; [reflexivity |].
    rewrite sumTo_clause_1_clause_2_equation_2.
    destruct (Z.eqb_spec sumto 1); [lia | reflexivity].
Qed.

Lemma half_step (n : Z) : n * (n + 1) / 2 + (n + 1) = (n + 1) * (n + 1 + 1) / 2.
Proof.
  replace ((n + 1) * (n + 1 + 1)) with (n * (n + 1) + (n + 1) * 2) by lia.
  rewrite Z.div_add by lia. reflexivity.
Qed.

Lemma half_mono (n m : Z) : 0 <= n <= m -> n * (n + 1) / 2 <= m * (m + 1) / 2.
Proof. intros H. apply Z.div_le_mono; [lia | nia]. Qed.

Lemma sumTo_nonneg (n : Z) :
  0 <= n -> n <= 65535 -> sumTo n = Some (n * (n + 1) / 2).
Proof.
  intros Hn. pattern n. apply natlike_ind; [reflexivity | | exact Hn].
  clear n Hn. intros n Hn IH Hmax. rewrite sumTo_body.
  destruct (Z.leb_spec (Z.succ n) 0); [lia |].
  destruct (Z.eqb_spec (Z.succ n) 1) as [H1 | H1].
  { rewrite H1. reflexivity. }
  replace (Z.succ n - 1) with n by lia.
  rewrite IH by lia. simpl. unfold Checked.add.
  replace (Z.succ n) with (n + 1) by lia. rewrite half_step.
  apply int_in_range.
  pose proof (half_mono (n + 1) 65535 ltac:(lia)) as Hb.
  change (65535 * (65535 + 1) / 2) with 2147450880 in Hb.
  assert (0 <= (n + 1) * (n + 1 + 1) / 2) by (apply Z.div_pos; nia).
  unfold Checked.INT_MIN, Int.INT_MAX. lia.
Qed.

(** X9. Up to 65535 [sumTo] returns the sum of the integers from 1 to its
    argument, [n * (n + 1) / 2], and 0 for an argument that is 0 or
    negative. *)
Theorem sumTo_closed_form (sumto : Z) :
  sumto <= 65535 ->
  sumTo sumto = Some (Z.max sumto 0 * (Z.max sumto 0 + 1) / 2).
Proof.
  intros Hmax. destruct (Z.le_gt_cases sumto 0) as [Hneg | Hpos].
  - rewrite sumTo_body. destruct (Z.leb_spec sumto 0); [| lia].
    rewrite Z.max_r by lia. reflexivity.
  - rewrite Z.max_l by lia. apply sumTo_nonneg; lia.
Qed.

Lemma sumTo_closed_form_witness :
  100 <= 65535 /\ sumTo 100 = Some 5050.
Proof.
  split; [lia |]. apply (sumTo_closed_form 100). lia.
Defined.

(** X10. From 65536 on the sum does not fit in an [int]: the addition
    overflows, at this call or at one below it. *)
Theorem sumTo_overflow (sumto : Z) : 65536 <= sumto -> sumTo sumto = None.
Proof.
  intros Hn. assert (H0 : 0 <= sumto - 65536) by lia.
  replace sumto with (sumto - 65536 + 65536) by lia.
  generalize dependent (sumto - 65536). clear sumto Hn.
  intros d Hd. pattern d. apply natlike_ind; [| | exact Hd]; clear d Hd.
  - rewrite sumTo_body. change (0 + 65536 <=? 0) with false.
    change (0 + 65536 =? 1) with false. cbv iota.
    rewrite sumTo_nonneg by lia. simpl. reflexivity.
  - intros d Hd IH. rewrite sumTo_body.
    destruct (Z.leb_spec (Z.succ d + 65536) 0); [lia |].
    destruct (Z.eqb_spec (Z.succ d + 65536) 1); [lia |].
    replace (Z.succ d + 65536 - 1) with (d + 65536) by lia.
    rewrite IH. reflexivity.
Qed.

Lemma sumTo_overflow_witness : 65536 <= 70000 /\ sumTo 70000 = None.
Proof.
  split; [lia |]. apply (sumTo_overflow 70000). lia.
Defined.

(** ** [factorial_of_an_integer_N] *)

Lemma factorial_body (x : Z) :
  factorial_of_an_integer_N x =
  if x <=? 1 then Some 1
  else r ← factorial_of_an_integer_N (x - 1); Checked.mul x r.
Proof.
  rewrite factorial_of_an_integer_N_equation_1.
  destruct (Z_le_dec x 1) as [Hle | Hgt].
  - rewrite factorial_of_an_integer_N_clause_1_equation_1.
    destruct (Z.leb_spec x 1); [reflexivity | lia].
  - rewrite factorial_of_an_integer_N_clause_1_equation_2.
    destruct (Z.leb_spec x 1); [lia | reflexivity].
Qed.

Lemma fact_S_Z (n : nat) :
  Z.of_nat (fact (S n)) = Z.of_nat (S n) * Z.of_nat (fact n).
Proof. change (fact (S n)) with (S n * fact n)%nat. apply Nat2Z.inj_mul. Qed.

Lemma fact_12 : Z.of_nat (fact 12) = 479001600.
Proof. rewrite !fact_S_Z. reflexivity. Qed.

Lemma factorial_nonneg (n : nat) :
  (n <= 12)%nat ->
  factorial_of_an_integer_N (Z.of_nat n) = Some (Z.of_nat (fact n)).
Proof.
  induction n as [| n IH]; intros Hn; [reflexivity |].
  rewrite factorial_body.
  destruct (Z.leb_spec (Z.of_nat (S n)) 1) as [H1 | H1].
  { assert (n = 0)%nat as -> by lia. reflexivity. }
  replace (Z.of_nat (S n) - 1) with (Z.of_nat n) by lia.
  rewrite IH by lia. simpl mbind. unfold Checked.mul. rewrite <- fact_S_Z.
  apply int_in_range.
  pose proof (fact_le (S n) 12 ltac:(lia)) as Hle.
  apply Nat2Z.inj_le in Hle. rewrite fact_12 in Hle.
  unfold Checked.INT_MIN, Int.INT_MAX. lia.
Qed.

(** X11. Up to 12 the function returns the factorial of its argument, and 1
    for an argument that is 1, 0 or negative. *)
Theorem factorial_of_an_integer_N_correct (x : Z) :
  x <= 12 ->
  factorial_of_an_integer_N x = Some (Z.of_nat (fact (Z.to_nat x))).
Proof.
  intros Hx. destruct (Z.le_gt_cases x 0) as [Hneg | Hpos].
  - rewrite factorial_body. destruct (Z.leb_spec x 1); [| lia].
    replace (Z.to_nat x) with 0%nat by lia. reflexivity.
  - rewrite <- (Z2Nat.id x) at 1 by lia. apply factorial_nonneg. lia.
Qed.

Lemma factorial_of_an_integer_N_correct_witness :
  6 <= 12 /\ factorial_of_an_integer_N 6 = Some 720.
Proof.
  split; [lia |]. apply (factorial_of_an_integer_N_correct 6). lia.
Defined.

(** X12. From 13 on the product does not fit in an [int]: [13 * 12!]
    overflows, and every larger argument goes through that product. *)
Theorem factorial_of_an_integer_N_overflow (x : Z) :
  13 <= x -> factorial_of_an_integer_N x = None.
Proof.
  intros Hx. assert (H0 : 0 <= x - 13) by lia.
  replace x with (x - 13 + 13) by lia.
  generalize dependent (x - 13). clear x Hx.
  intros d Hd. pattern d. apply natlike_ind; [| | exact Hd]; clear d Hd.
  - rewrite factorial_body. change (0 + 13 <=? 1) with false. cbv iota.
    change (0 + 13 - 1) with (Z.of_nat 12).
    rewrite factorial_nonneg by lia. rewrite fact_12. reflexivity.
  - intros d Hd IH. rewrite factorial_body.
    destruct (Z.leb_spec (Z.succ d + 13) 1); [lia |].
    replace (Z.succ d + 13 - 1) with (d + 13) by lia.
    rewrite IH. reflexivity.
Qed.

Lemma factorial_of_an_integer_N_overflow_witness :
  13 <= 20 /\ factorial_of_an_integer_N 20 = None.
Proof.
  split; [lia |]. apply (factorial_of_an_integer_N_overflow 20). lia.
Defined.

(** ** Numerals *)

Lemma of_digits_snoc (base : Z) (ds : list Z) (d : Z) :
  of_digits base (ds ++ [d]) = base * of_digits base ds + d.
Proof. unfold of_digits. rewrite foldl_app. reflexivity. Qed.

Lemma sum_snoc (ds : list Z) (d : Z) : sum (ds ++ [d]) = sum ds + d.
Proof.
  unfold sum. induction ds as [| a ds IH]; simpl; [lia |]. rewrite IH. lia.
Qed.

(** A numeral with digits from 0 to 9 is at least the sum of its digits,
    which is not negative. *)
Lemma sum_le_of_digits (ds : list Z) :
  Forall (fun d => 0 <= d <= 9) ds -> 0 <= sum ds <= of_digits 10 ds.
Proof.
  induction ds as [| d ds IH] using rev_ind; intros Hds.
  - unfold sum, of_digits. simpl. lia.
  - apply Forall_app in Hds as [Hds Hd]. rewrite Forall_singleton in Hd.
    rewrite sum_snoc, of_digits_snoc. specialize (IH Hds). lia.
Qed.

(** ** [quesion_two] *)

Lemma quesion_two_body (x : Z) :
  quesion_two x =
  if x <? 10 then Some x
  else r ← quesion_two (x ÷ 10); Checked.add r (Z.rem x 10).
Proof.
  rewrite quesion_two_equation_1.
  destruct (Z_lt_dec x 10) as [Hlt | Hge].
  - rewrite quesion_two_clause_1_equation_1.
    destruct (Z.ltb_spec x 10); [reflexivity | lia].
  - rewrite quesion_two_clause_1_equation_2.
    destruct (Z.ltb_spec x 10); [lia | reflexivity].
Qed.

(** X13. On the number written with the decimal digits [ds], the function
    returns the sum of those digits; no addition overflows. *)
Theorem quesion_two_digit_sum (ds : list Z) :
  Forall (fun d => 0 <= d <= 9) ds ->
  of_digits 10 ds <= Int.INT_MAX ->
  quesion_two (of_digits 10 ds) = Some (sum ds).
Proof.
  induction ds as [| d ds IH] using rev_ind; intros Hds Hmax; [reflexivity |].
  apply Forall_app in Hds as [Hds Hd]. rewrite Forall_singleton in Hd.
  rewrite of_digits_snoc in *. rewrite sum_snoc.
  pose proof (sum_le_of_digits ds Hds) as Hsum.
  rewrite quesion_two_body.
  destruct (Z.ltb_spec (10 * of_digits 10 ds + d) 10) as [Hlt | Hge].
  - f_equal. lia.
  - assert (Hq : (10 * of_digits 10 ds + d) ÷ 10 = of_digits 10 ds).
    { rewrite Z.quot_div_nonneg by lia.
      rewrite Z.mul_comm, Z.div_add_l by lia.
      rewrite Z.div_small by lia. lia. }
    assert (Hr : Z.rem (10 * of_digits 10 ds + d) 10 = d).
    { rewrite Z.rem_mod_nonneg by lia.
      rewrite Z.mul_comm, Z.add_comm, Z.mod_add by lia.
      apply Z.mod_small. lia. }
    rewrite Hq, Hr, IH by (assumption || lia). simpl.
    apply int_in_range. unfold Checked.INT_MIN. lia.
Qed.

Lemma quesion_two_digit_sum_witness :
  Forall (fun d => 0 <= d <= 9) [9; 3; 4; 2; 7]
  /\ of_digits 10 [9; 3; 4; 2; 7] <= Int.INT_MAX
  /\ quesion_two 93427 = Some 25.
Proof.
  assert (Hds : Forall (fun d => 0 <= d <= 9) [9; 3; 4; 2; 7])
    by (repeat constructor; lia).
  assert (Hmax : of_digits 10 [9; 3; 4; 2; 7] <= Int.INT_MAX)
    by (vm_compute; discriminate).
  split; [exact Hds | split; [exact Hmax |]].
  apply (quesion_two_digit_sum [9; 3; 4; 2; 7] Hds Hmax).
Defined.

(** X14. For every non-negative [int] the function returns a value, between 0
    and its argument, that is congruent to the argument modulo 9. *)
Theorem quesion_two_mod_9 (x : Z) :
  0 <= x <= Int.INT_MAX ->
  exists s, quesion_two x = Some s /\ 0 <= s <= x /\ s mod 9 = x mod 9.
Proof.
  intros [H0 Hmax]. revert Hmax. pattern x.
  apply Zlt_0_ind; [| exact H0].
  - clear x H0. intros x IH Hx Hmax.
    rewrite quesion_two_body.
    destruct (Z.ltb_spec x 10) as [Hlt | Hge].
    + exists x. repeat split; lia.
    + pose proof (Z.quot_rem' x 10) as Hqr.
      pose proof (Z.rem_bound_pos x 10 Hx ltac:(lia)) as Hrem.
      pose proof (Z.quot_pos x 10 Hx ltac:(lia)) as Hq.
      destruct (IH (x ÷ 10)) as (s & Hs & Hbound & Hmod); [lia | lia |].
      rewrite Hs. simpl. unfold Checked.add.
      exists (s + Z.rem x 10). split.
      * apply int_in_range. unfold Checked.INT_MIN. lia.
      * split; [lia |].
        replace (x mod 9) with ((10 * (x ÷ 10) + Z.rem x 10) mod 9)
          by (rewrite <- Hqr; reflexivity).
        rewrite Z.add_mod, Hmod by lia.
        rewrite (Z.add_mod (10 * _)), (Z.mul_mod 10) by lia.
        change (10 mod 9) with 1. rewrite Z.mul_1_l, Z.mod_mod by lia.
        reflexivity.
Qed.

Lemma quesion_two_mod_9_witness :
  0 <= 357 <= Int.INT_MAX
  /\ exists s, quesion_two 357 = Some s /\ 0 <= s <= 357 /\ s mod 9 = 357 mod 9.
Proof.
  assert (Hx : 0 <= 357 <= Int.INT_MAX) by (unfold Int.INT_MAX; lia).
  split; [exact Hx |]. apply (quesion_two_mod_9 357 Hx).
Defined.

(** ** [question_three] *)

Lemma question_three_body (x : Z) :
  question_three x =
  if x =? 0 then [] else question_three (x ÷ 2) ++ [Z.rem x 2].
Proof.
  rewrite question_three_equation_1.
  destruct (Z.eq_dec x 0) as [-> | Hne]; [reflexivity |].
  rewrite question_three_clause_1_equation_2.
  destruct (Z.eqb_spec x 0); [lia | reflexivity].
Qed.

(** Induction along the calls of [question_three]. *)
Lemma question_three_ind (P : Z -> Prop) :
  P 0 -> (forall x, x <> 0 -> P (x ÷ 2) -> P x) -> forall x, P x.
Proof.
  intros H0 Hstep x.
  assert (Hall : forall a, 0 <= a -> forall y, Z.abs y = a -> P y).
  { intros a Ha. pattern a. apply Zlt_0_ind; [| exact Ha].
    clear a Ha. intros a IH Ha y Hy.
    destruct (Z.eq_dec y 0) as [-> | Hne]; [exact H0 |].
    apply Hstep; [exact Hne |].
    apply (IH (Z.abs (y ÷ 2))); [| reflexivity].
    split; [apply Z.abs_nonneg |].
    rewrite <- (Z.quot_abs y 2), <- Hy by lia. apply Z.quot_lt; lia. }
  apply (Hall (Z.abs x) (Z.abs_nonneg x) x eq_refl).
Qed.

Lemma question_three_decode (x : Z) : of_digits 2 (question_three x) = x.
Proof.
  pattern x. apply question_three_ind; [reflexivity |].
  clear x. intros x Hne IH. rewrite question_three_body.
  destruct (Z.eqb_spec x 0); [lia |].
  rewrite of_digits_snoc, IH. symmetry. apply Z.quot_rem'.
Qed.

Lemma question_three_digits (x : Z) :
  Forall (fun d => d = 0 \/ d = Z.sgn x) (question_three x).
Proof.
  pattern x. apply question_three_ind; [constructor |].
  clear x. intros x Hne IH. rewrite question_three_body.
  destruct (Z.eqb_spec x 0); [lia |].
  apply Forall_app. split.
  - destruct (Z.eq_dec (x ÷ 2) 0) as [Hq | Hq].
    + rewrite Hq. constructor.
    + eapply Forall_impl; [exact IH |]. intros d [-> | ->]; [left; reflexivity |].
      right. pose proof (Z.quot_rem' x 2). pose proof (Z.rem_bound_abs x 2).
      destruct (Z.lt_trichotomy x 0) as [Hx | [Hx | Hx]]; [| lia |].
      * pose proof (Z.quot_opp_l x 2 ltac:(lia)).
        pose proof (Z.quot_pos (- x) 2 ltac:(lia) ltac:(lia)). lia.
      * pose proof (Z.quot_pos x 2 ltac:(lia) ltac:(lia)). lia.
  - apply Forall_singleton.
    pose proof (Z.rem_bound_abs x 2 ltac:(lia)).
    destruct (Z.lt_trichotomy x 0) as [Hx | [Hx | Hx]]; [| lia |].
    + pose proof (Z.rem_nonpos x 2 ltac:(lia) ltac:(lia)). lia.
    + pose proof (Z.rem_nonneg x 2 ltac:(lia) ltac:(lia)). lia.
Qed.

Lemma log2_half (a : Z) : 2 <= a -> Z.log2 (a ÷ 2) = Z.log2 a - 1.
Proof.
  intros Ha. rewrite Z.quot_div_nonneg by lia.
  change 2 with (2 ^ 1) at 1. rewrite <- Z.shiftr_div_pow2 by lia.
  rewrite Z.log2_shiftr by lia.
  pose proof (Z.log2_le_mono 2 a ltac:(lia)) as Hl.
  change (Z.log2 2) with 1 in Hl. lia.
Qed.

Lemma question_three_length (x : Z) :
  x <> 0 -> Z.of_nat (length (question_three x)) = Z.log2 (Z.abs x) + 1.
Proof.
  pattern x. apply question_three_ind; [lia |].
  clear x. intros x Hne IH _. rewrite question_three_body.
  destruct (Z.eqb_spec x 0); [lia |].
  rewrite length_app, Nat2Z.inj_add. simpl length.
  destruct (Z.eq_dec (x ÷ 2) 0) as [Hq | Hq].
  - rewrite Hq. change (question_three 0) with (@nil Z). simpl length.
    pose proof (Z.quot_rem' x 2). pose proof (Z.rem_bound_abs x 2 ltac:(lia)).
    assert (Z.abs x = 1) as -> by lia. reflexivity.
  - rewrite IH by exact Hq.
    rewrite <- (Z.quot_abs x 2) by lia. change (Z.abs 2) with 2.
    assert (2 <= Z.abs x).
    { destruct (Z.le_gt_cases 2 (Z.abs x)); [assumption |].
      exfalso. apply Hq. apply Z.quot_small_iff; lia. }
    rewrite log2_half by assumption. lia.
Qed.



Lemma of_digits_leading_one (bs : list Z) :
  Forall (fun b => b = 0 \/ b = 1) bs -> 1 <= of_digits 2 (1 :: bs).
Proof.
  induction bs as [| b bs IH] using rev_ind; intros Hbs; [reflexivity |].
  apply Forall_app in Hbs as [Hbs Hb]. rewrite Forall_singleton in Hb.
  rewrite app_comm_cons, of_digits_snoc. specialize (IH Hbs). lia.
Qed.

(** X16. Conversely, on the number that a binary numeral with a leading 1
    stands for, [question_three] writes exactly that numeral: the digits in
    the order of the numeral, with no leading zero. *)
Theorem question_three_canonical (bs : list Z) :
  Forall (fun b => b = 0 \/ b = 1) bs ->
  question_three (of_digits 2 (1 :: bs)) = 1 :: bs.
Proof.
  induction bs as [| b bs IH] using rev_ind; intros Hbs; [reflexivity |].
  apply Forall_app in Hbs as [Hbs Hb]. rewrite Forall_singleton in Hb.
  pose proof (of_digits_leading_one bs Hbs) as Hpos.
  rewrite app_comm_cons, of_digits_snoc, question_three_body.
  destruct (Z.eqb_spec (2 * of_digits 2 (1 :: bs) + b) 0); [lia |].
  assert (Hq : (2 * of_digits 2 (1 :: bs) + b) ÷ 2 = of_digits 2 (1 :: bs)).
  { rewrite Z.quot_div_nonneg by lia.
    rewrite Z.mul_comm, Z.div_add_l by lia.
    rewrite Z.div_small by lia. lia. }
  assert (Hr : Z.rem (2 * of_digits 2 (1 :: bs) + b) 2 = b).
  { rewrite Z.rem_mod_nonneg by lia.
    rewrite Z.mul_comm, Z.add_comm, Z.mod_add by lia.
    apply Z.mod_small. lia. }
  rewrite Hq, Hr, IH by assumption. reflexivity.
Qed.

Lemma question_three_canonical_witness :
  Forall (fun b => b = 0 \/ b = 1) [1; 0; 0]
  /\ question_three 12 = [1; 1; 0; 0].
Proof.
  assert (Hbs : Forall (fun b => b = 0 \/ b = 1) [1; 0; 0])
    by (repeat constructor; auto).
  split; [exact Hbs |].
  apply (question_three_canonical [1; 0; 0] Hbs).
Defined.

(** ** [question_threeB] *)

(** On an [unsigned int] that is not 0, the function writes what
    [question_three] writes on the same number. *)
Lemma question_threeB_question_three (x : N) :
  (0 < x < 2 ^ 32)%N ->
  (question_threeB x).1 = question_three (Z.of_N x).
Proof.
  intros Hx. unfold question_threeB.
  destruct (N.eqb_spec x 0); [lia |]. cbn [fst].
  assert (Hhalf : (x / 2 < 2 ^ 31)%N).
  { apply N.Div0.div_lt_upper_bound. change (2 * 2 ^ 31)%N with (2 ^ 32)%N. lia. }
  rewrite int_of_size_t_small
    by (unfold Int.INT_MAX; change (2 ^ 31)%N with 2147483648%N in Hhalf; lia).
  rewrite (question_three_body (Z.of_N x)).
  destruct (Z.eqb_spec (Z.of_N x) 0); [lia |].
  rewrite N2Z.inj_div, N2Z.inj_mod.
  rewrite Z.quot_div_nonneg, Z.rem_mod_nonneg by lia. reflexivity.
Qed.

(** X17. For every [unsigned int] but 0, the function writes the binary numeral
    of its argument, digits 0 and 1 without a leading zero, and then flows
    off its end without returning a value. An argument of 2^31 or more,
    which is what a negative [int] converts to, gives 32 digits. The
    argument 0 writes nothing and returns 0. *)
Theorem question_threeB_output (x : N) :
  question_threeB 0 = ([], Some 0%N)
  /\ ((0 < x < 2 ^ 32)%N ->
      of_digits 2 (question_threeB x).1 = Z.of_N x
      /\ Forall (fun d => d = 0 \/ d = 1) (question_threeB x).1
      /\ Z.of_nat (length (question_threeB x).1) = Z.log2 (Z.of_N x) + 1
      /\ ((2 ^ 31 <= x)%N -> length (question_threeB x).1 = 32%nat)
      /\ (question_threeB x).2 = None).
Proof.
  split; [reflexivity |]. intros Hx.
  rewrite question_threeB_question_three by exact Hx.
  assert (Hlen : Z.of_nat (length (question_three (Z.of_N x)))
                 = Z.log2 (Z.of_N x) + 1).
  { rewrite question_three_length by lia. rewrite Z.abs_eq by lia. reflexivity. }
  split; [apply question_three_decode |].
  split.
  { eapply Forall_impl; [apply question_three_digits |].
    intros d [-> | ->]; [left; reflexivity | right].
    apply Z.sgn_pos. lia. }
  split; [exact Hlen |].
  split.
  - intros Hbig.
    assert (Hlog : Z.log2 (Z.of_N x) = 31).
    { apply Z.log2_unique; [lia |].
      change (2 ^ 31)%N with 2147483648%N in Hbig.
      change (2 ^ 32)%N with 4294967296%N in Hx.
      change (2 ^ 31) with 2147483648. change (2 ^ Z.succ 31) with 4294967296.
      lia. }
    lia.
  - unfold question_threeB. destruct (N.eqb_spec x 0); [lia | reflexivity].
Qed.

Lemma question_threeB_output_witness :
  (0 < 4294967281 < 2 ^ 32)%N /\ (2 ^ 31 <= 4294967281)%N
  /\ length (question_threeB 4294967281).1 = 32%nat.
Proof.
  assert (Hx : (0 < 4294967281 < 2 ^ 32)%N) by (change (2 ^ 32)%N with 4294967296%N; lia).
  assert (Hbig : (2 ^ 31 <= 4294967281)%N) by (change (2 ^ 31)%N with 2147483648%N; lia).
  split; [exact Hx | split; [exact Hbig |]].
  apply (question_threeB_output 4294967281); assumption.
Defined.

(** ** [countDown_plus] *)

Lemma countDown_plus_body (count : Z) :
  countDown_plus count =
  if 1 <? count then Push count :: countDown_plus (count - 1) ++ [Pop count]
  else [Push count; Pop count].
Proof.
  rewrite countDown_plus_equation_1.
  destruct (Z_gt_dec count 1) as [Hgt | Hle].
  - rewrite countDown_plus_clause_1_equation_1.
    destruct (Z.ltb_spec 1 count); [reflexivity | lia].
  - rewrite countDown_plus_clause_1_equation_2.
    destruct (Z.ltb_spec 1 count); [lia | reflexivity].
Qed.

Lemma descending_step (count : Z) :
  1 <= count -> descending count = count :: descending (count - 1).
Proof.
  intros Hc. unfold descending.
  replace (Z.to_nat count) with (S (Z.to_nat (count - 1))) by lia.
  cbn [seq]. rewrite fmap_cons. f_equal; [lia |].
  rewrite <- fmap_S_seq, <- list_fmap_compose.
  apply list_fmap_ext. intros i j _. simpl. lia.
Qed.

Lemma countDown_plus_descending (n : nat) :
  countDown_plus (Z.of_nat (S n))
  = (Push <$> descending (Z.of_nat (S n)))
      ++ (Pop <$> reverse (descending (Z.of_nat (S n)))).
Proof.
  induction n as [| n IH]; [reflexivity |].
  rewrite countDown_plus_body.
  destruct (Z.ltb_spec 1 (Z.of_nat (S (S n)))); [| lia].
  rewrite (descending_step (Z.of_nat (S (S n)))) by lia.
  replace (Z.of_nat (S (S n)) - 1) with (Z.of_nat (S n)) by lia.
  rewrite IH, reverse_cons, !fmap_cons, fmap_app, <- app_assoc. reflexivity.
Qed.

(** X18. For a count of 1 or more the function writes the pushes of [count],
    [count - 1], ..., 1 and then the pops of the same numbers in the
    reverse order, [2 * count] lines in all; for a count that is 1, 0 or
    negative it writes one push and one pop of that count. *)
Theorem countDown_plus_output (count : Z) :
  (1 <= count ->
     countDown_plus count
     = (Push <$> descending count) ++ (Pop <$> reverse (descending count))
     /\ Z.of_nat (length (countDown_plus count)) = 2 * count)
  /\ (count <= 1 -> countDown_plus count = [Push count; Pop count]).
Proof.
  split.
  - intros Hc.
    assert (Hout : countDown_plus count
                   = (Push <$> descending count)
                       ++ (Pop <$> reverse (descending count))).
    { replace count with (Z.of_nat (S (Z.to_nat (count - 1)))) by lia.
      apply countDown_plus_descending. }
    split; [exact Hout |].
    rewrite Hout, length_app, !length_fmap, length_reverse.
    unfold descending. rewrite length_fmap, length_seq. lia.
  - intros Hc. rewrite countDown_plus_body.
    destruct (Z.ltb_spec 1 count); [lia | reflexivity].
Qed.

Lemma countDown_plus_output_witness :
  1 <= 5
  /\ countDown_plus 5
     = [Push 5; Push 4; Push 3; Push 2; Push 1;
        Pop 1; Pop 2; Pop 3; Pop 4; Pop 5].
Proof.
  split; [lia |].
  apply (countDown_plus_output 5). lia.
Defined.

Local Close Scope Z_scope.
